(** * Particle choreography of the Christmas-tree scene

    A shallow embedding of [src/components/ThreeScene.tsx]: the [Particle]
    class (constructor and [update]), [addPhotoToScene], the mount effect that
    builds the pool, the per-frame [animate] callback and the layout effect
    that recomputes the targets on a mode change; and of the hand detector
    ([VisionService.detect]) and the state updates of [src/App.tsx].

    Modelling conventions.
    - A JavaScript [number] is a real number of [R]; arithmetic is exact
      (rounding of IEEE doubles is not modelled).
    - [Math.random()] reads the next value of an explicit source of draws;
      [Rand A] is the state monad over that source.  Its values are only
      assumed to lie in [[0,1)] where a theorem needs it.
    - three.js is an external library.  [Vector3] and [Euler] are records
      with the few methods the code calls ([set], [copy], [add], [lerp]);
      the spherical interpolation of the mesh orientation
      ([mesh.quaternion.slerp]) is a parameter of the development.
    - The pool [particlesRef.current] is a list in insertion order.  The
      arrays produced by [filter] share their objects with the pool, so a
      [forEach] over such an array is modelled as an in-place pass over the
      pool that touches the members of one type and counts them. *)

From Stdlib Require Import Reals Lra Lia List ZArith Bool Psatz.
Import ListNotations.
Open Scope R_scope.

(** ** three.js values *)

Module Vector3.

Record t : Type := new { x : R; y : R; z : R }.

Definition zero : t := new 0 0 0.
Definition one : t := new 1 1 1.

(** [new THREE.Vector3().copy(v)] *)
Definition copy (v : t) : t := new (x v) (y v) (z v).

(** [this.add(v)] *)
Definition add (a v : t) : t := new (x a + x v) (y a + y v) (z a + z v).

(** [this.lerp(v, alpha)]: [this.x += (v.x - this.x) * alpha], ... *)
Definition lerp (a v : t) (alpha : R) : t :=
  new (x a + (x v - x a) * alpha)
      (y a + (y v - y a) * alpha)
      (z a + (z v - z a) * alpha).

(** [this.y = s] *)
Definition setY (a : t) (s : R) : t := new (x a) s (z a).

(** [this.distanceTo(v)] *)
Definition distanceTo (a v : t) : R :=
  sqrt ((x a - x v) * (x a - x v) + (y a - y v) * (y a - y v)
        + (z a - z v) * (z a - z v)).

(** [this.length()] *)
Definition length (a : t) : R := sqrt (x a * x a + y a * y a + z a * z a).

(** Distance from the vertical (y) axis. *)
Definition axisDistance (a : t) : R := sqrt (x a * x a + z a * z a).

End Vector3.

Module Euler.

Record t : Type := new { x : R; y : R; z : R }.

Definition zero : t := new 0 0 0.

(** [new THREE.Euler().copy(e)] *)
Definition copy (e : t) : t := new (x e) (y e) (z e).

End Euler.

(** [THREE.Object3D]: the part of a mesh that the particle code reads and
    writes.  three.js keeps [rotation] and [quaternion] in sync, so the
    orientation is held once, as Euler angles. *)
Record Object3D : Type := mkObject3D {
  position : Vector3.t;
  rotation : Euler.t;
  scale : Vector3.t
}.

(** [new THREE.Mesh(geo, mat)]: at the origin, unrotated, unit scale. *)
Definition Mesh_new : Object3D := mkObject3D Vector3.zero Euler.zero Vector3.one.

(** [THREE.MathUtils.lerp(x, y, t)] *)
Definition MathUtils_lerp (a b t : R) : R := (1 - t) * a + t * b.

(** [Math.pow(b, e)] for a positive exponent [e] and a base [b >= 0]: the
    real power for [b > 0], and [0] at [b = 0].  (A negative base with a
    fractional exponent is NaN in JavaScript; the layout never forms one,
    its bases are [1 - i/count] with [i < count].) *)
Definition Math_pow (b e : R) : R :=
  if Rlt_dec 0 b then Rpower b e else 0.

(** [Math.floor] *)
Definition Math_floor (a : R) : Z := Zfloor a.

(** ** src/types.ts *)

Inductive AppMode : Type := TREE | SCATTER | FOCUS.

Definition AppMode_eqb (a b : AppMode) : bool :=
  match a, b with
  | TREE, TREE | SCATTER, SCATTER | FOCUS, FOCUS => true
  | _, _ => false
  end.

Record HandData : Type := mkHandData {
  hand_x : R;
  hand_y : R;
  pinch : bool;
  fist : bool;
  open : bool
}.

(** ** The random source *)

Record Rng : Type := mkRng { draws : nat -> R; cursor : nat }.

Definition Rand (A : Type) : Type := Rng -> A * Rng.

Definition ret {A : Type} (a : A) : Rand A := fun g => (a, g).

Definition bind {A B : Type} (m : Rand A) (k : A -> Rand B) : Rand B :=
  fun g => let (a, g') := m g in k a g'.

Notation "x <- m ;; k" := (bind m (fun x => k))
  (at level 61, m at next level, right associativity).

(** [Math.random()] *)
Definition Math_random : Rand R :=
  fun g => (draws g (cursor g), mkRng (draws g) (S (cursor g))).

(** Every value the source yields lies in [[0,1)]. *)
Definition unit_draws (g : Rng) : Prop := forall n, 0 <= draws g n < 1.

(** ** class Particle *)

Inductive ParticleType : Type := SHAPE | PHOTO | DUST | STAR | NEEDLE.

Definition ParticleType_eqb (a b : ParticleType) : bool :=
  match a, b with
  | SHAPE, SHAPE | PHOTO, PHOTO | DUST, DUST | STAR, STAR | NEEDLE, NEEDLE => true
  | _, _ => false
  end.

Record Particle : Type := mkParticle {
  mesh : Object3D;
  targetPos : Vector3.t;
  targetRot : Euler.t;
  targetScale : Vector3.t;
  type : ParticleType;
  twinkleOffset : R;
  twinkleSpeed : R;
  velocity : Vector3.t;
  baseScale : R
}.

Definition set_mesh (p : Particle) (m : Object3D) : Particle :=
  mkParticle m (targetPos p) (targetRot p) (targetScale p) (type p)
    (twinkleOffset p) (twinkleSpeed p) (velocity p) (baseScale p).

Definition set_targetPos (p : Particle) (v : Vector3.t) : Particle :=
  mkParticle (mesh p) v (targetRot p) (targetScale p) (type p)
    (twinkleOffset p) (twinkleSpeed p) (velocity p) (baseScale p).

Definition set_targetRot (p : Particle) (e : Euler.t) : Particle :=
  mkParticle (mesh p) (targetPos p) e (targetScale p) (type p)
    (twinkleOffset p) (twinkleSpeed p) (velocity p) (baseScale p).

Definition set_targetScale (p : Particle) (v : Vector3.t) : Particle :=
  mkParticle (mesh p) (targetPos p) (targetRot p) v (type p)
    (twinkleOffset p) (twinkleSpeed p) (velocity p) (baseScale p).

(** [new Particle(mesh, type)].  The draws are taken in the order of the
    constructor body: twinkleOffset, twinkleSpeed, then the three
    components of the velocity. *)
Definition Particle_new (m : Object3D) (ty : ParticleType) : Rand Particle :=
  r1 <- Math_random ;;
  r2 <- Math_random ;;
  r3 <- Math_random ;;
  r4 <- Math_random ;;
  r5 <- Math_random ;;
  ret {| mesh := m;
         type := ty;
         targetPos := Vector3.copy (position m);
         targetRot := Euler.copy (rotation m);
         targetScale := Vector3.copy (scale m);
         baseScale := Vector3.x (scale m);
         twinkleOffset := r1 * PI * 2;
         twinkleSpeed := 0.5 + r2 * 2;
         velocity := Vector3.new ((r3 - 0.5) * 0.02)
                                 (-0.01 - r4 * 0.03)
                                 ((r5 - 0.5) * 0.02) |}.

Definition lerpFactor (mode : AppMode) : R :=
  if AppMode_eqb mode FOCUS then 0.08 else 0.05.

(** The types whose scale follows the twinkle envelope. *)
Definition twinkles (ty : ParticleType) : bool :=
  ParticleType_eqb ty SHAPE || ParticleType_eqb ty DUST || ParticleType_eqb ty STAR.

(** ** The layout effect ([useEffect] on [mode]) *)

Definition isType (ty : ParticleType) (p : Particle) : bool :=
  ParticleType_eqb (type p) ty.

(** [pool.filter(p => p.type === ty)] *)
Definition partition (ty : ParticleType) (pool : list Particle) : list Particle :=
  filter (isType ty) pool.

(** [arr.forEach((p, i) => body)], the index starting at [i]. *)
Fixpoint forEach (body : Particle -> nat -> Rand Particle) (i : nat)
         (arr : list Particle) : Rand (list Particle) :=
  match arr with
  | [] => ret []
  | p :: rest =>
      p' <- body p i ;;
      rest' <- forEach body (S i) rest ;;
      ret (p' :: rest')
  end.

(** [pool.filter(p => p.type === ty).forEach((p, i) => body)] seen from the
    pool: the members of type [ty] are visited in pool order, [i] counting
    them; the others are left alone. *)
Fixpoint forEachOf (ty : ParticleType) (body : Particle -> nat -> Rand Particle)
         (i : nat) (pool : list Particle) : Rand (list Particle) :=
  match pool with
  | [] => ret []
  | p :: rest =>
      if isType ty p then
        p' <- body p i ;;
        rest' <- forEachOf ty body (S i) rest ;;
        ret (p' :: rest')
      else
        rest' <- forEachOf ty body i rest ;;
        ret (p :: rest')
  end.

(** [const q = pool.find(p => p.type === ty); if (q) q.field = ...] *)
Fixpoint withFound (ty : ParticleType) (change : Particle -> Particle)
         (pool : list Particle) : list Particle :=
  match pool with
  | [] => []
  | p :: rest =>
      if isType ty p then change p :: rest
      else p :: withFound ty change rest
  end.

(** Body of [needles.forEach] in TREE mode. *)
Definition treeNeedle (count : nat) (p : Particle) (i : nat) : Rand Particle :=
  let t := INR i / INR count in
  let radius := 9 * Math_pow (1 - t) 1.3 in
  let angle := t * 50 * PI in
  let p1 := set_targetPos p
              (Vector3.new (cos angle * radius) (t * 28 - 12) (sin angle * radius)) in
  r1 <- Math_random ;;
  r2 <- Math_random ;;
  ret (set_targetRot p1 (Euler.new r1 angle r2)).

(** Body of [shapes.forEach] in TREE mode. *)
Definition treeShape (count : nat) (p : Particle) (i : nat) : Rand Particle :=
  let t := INR i / INR count in
  let radius := 9.5 * Math_pow (1 - t) 1.3 in
  let angle := t * 35 * PI + PI in
  ret (set_targetPos p
         (Vector3.new (cos angle * radius) (t * 28 - 12) (sin angle * radius))).

(** Body of [photos.forEach] in TREE mode. *)
Definition treePhoto (isMobile : bool) (count : nat) (p : Particle) (i : nat)
  : Rand Particle :=
  let a := INR i / INR count * PI * 2 in
  let r := if isMobile then 12 else 16 in
  u <- Math_random ;;
  let p1 := set_targetPos p (Vector3.new (cos a * r) (2 + u * 5) (sin a * r)) in
  let p2 := set_targetRot p1 (Euler.new 0 (- a + PI) 0) in
  ret (set_targetScale p2 (Vector3.new 0.6 0.6 0.6)).

(** Body of [particlesRef.current.forEach] in SCATTER mode. *)
Definition scatterOne (p : Particle) (_ : nat) : Rand Particle :=
  u <- Math_random ;;
  let r := 10 + u * 25 in
  v <- Math_random ;;
  let theta := v * PI * 2 in
  w <- Math_random ;;
  let phi := acos (2 * w - 1) in
  ret (set_targetPos p
         (Vector3.new (r * sin phi * cos theta) (r * sin phi * sin theta)
                      (r * cos phi))).

(** Body of [photos.forEach] in FOCUS mode. *)
Definition focusPhoto (isMobile : bool) (focusIdx : Z) (p : Particle) (i : nat)
  : Rand Particle :=
  if Z.eqb (Z.of_nat i) focusIdx then
    let p1 := set_targetPos p (Vector3.new 0 3 (if isMobile then 30 else 35)) in
    let p2 := set_targetRot p1 (Euler.new 0 0 0) in
    ret (set_targetScale p2
           (Vector3.new (if isMobile then 3.5 else 5.5)
                        (if isMobile then 3.5 else 5.5) 5.5))
  else
    u <- Math_random ;;
    v <- Math_random ;;
    ret (set_targetPos p (Vector3.new ((u - 0.5) * 80) ((v - 0.5) * 80) (-40))).

Definition starTo (a b c : R) (p : Particle) : Particle :=
  set_targetPos p (Vector3.new a b c).

(** The body of the effect on a non-empty pool. *)
Definition layout (mode : AppMode) (isMobile : bool) (pool : list Particle)
  : Rand (list Particle) :=
  let needles := partition NEEDLE pool in
  let shapes := partition SHAPE pool in
  let photos := partition PHOTO pool in
  match mode with
  | TREE =>
      let pool0 := withFound STAR (starTo 0 16.5 0) pool in
      pool1 <- forEachOf NEEDLE (treeNeedle (length needles)) 0 pool0 ;;
      pool2 <- forEachOf SHAPE (treeShape (length shapes)) 0 pool1 ;;
      forEachOf PHOTO (treePhoto isMobile (length photos)) 0 pool2
  | SCATTER => forEach scatterOne 0 pool
  | FOCUS =>
      u <- Math_random ;;
      let focusIdx := Math_floor (u * INR (length photos)) in
      pool1 <- forEachOf PHOTO (focusPhoto isMobile focusIdx) 0 pool ;;
      ret (withFound STAR (starTo 0 40 (-50)) pool1)
  end.

(** [if (!particlesRef.current.length) return;] then the body. *)
Definition layoutPass (mode : AppMode) (isMobile : bool) (pool : list Particle)
  : Rand (list Particle) :=
  match pool with
  | [] => ret []
  | _ :: _ => layout mode isMobile pool
  end.

(** ** The integrator *)

Section Integrator.

(** [slerp cur target f]: the Euler angles of [mesh.rotation] after
    [mesh.quaternion.slerp(new THREE.Quaternion().setFromEuler(target), f)]
    on a mesh whose rotation was [cur]. *)
Variable slerp : Euler.t -> Euler.t -> R -> Euler.t.

(** [Particle.update(mode, time, isMobile)] *)
Definition update (mode : AppMode) (time : R) (isMobile : bool)
           (p : Particle) : Particle :=
  let f := lerpFactor mode in
  let pos1 := Vector3.lerp (position (mesh p)) (targetPos p) f in
  let rot1 := slerp (rotation (mesh p)) (targetRot p) f in
  let scale1 :=
    if twinkles (type p) then
      let s := baseScale p
               * (0.8 + sin (time * twinkleSpeed p + twinkleOffset p) * 0.3) in
      Vector3.lerp (scale (mesh p)) (Vector3.new s s s) 0.1
    else Vector3.lerp (scale (mesh p)) (targetScale p) f in
  let tpos :=
    if ParticleType_eqb (type p) DUST && negb (AppMode_eqb mode FOCUS) then
      let moved := Vector3.add (targetPos p) (velocity p) in
      if Rlt_dec (Vector3.y moved) (-20) then Vector3.setY moved 30 else moved
    else targetPos p in
  let rot2 :=
    if AppMode_eqb mode SCATTER then
      Euler.new (Euler.x rot1 + Vector3.x (velocity p) * 5)
                (Euler.y rot1 + Vector3.y (velocity p) * 5)
                (Euler.z rot1)
    else rot1 in
  set_targetPos (set_mesh p (mkObject3D pos1 rot2 scale1)) tpos.

(** [n] frames of the loop seen from one particle; frame [k] runs
    [update] with the elapsed time [clock k]. *)
Fixpoint ticks (mode : AppMode) (clock : nat -> R) (isMobile : bool)
         (n : nat) (p : Particle) : Particle :=
  match n with
  | O => p
  | S k => update mode (clock k) isMobile (ticks mode clock isMobile k p)
  end.

(** ** The component state *)

Record Scene : Type := mkScene {
  sceneRef : bool;             (* [sceneRef.current] is set *)
  particles : list Particle;   (* [particlesRef.current] *)
  groupRotation : Euler.t;     (* [mainGroupRef.current.rotation] *)
  photoListener : bool         (* the ['add-photo'] listener is installed *)
}.

Definition initialScene : Scene := mkScene false [] Euler.zero false.

Definition set_particles (s : Scene) (pool : list Particle) : Scene :=
  mkScene (sceneRef s) pool (groupRotation s) (photoListener s).

(** [addPhotoToScene(texture)].  The texture only reaches the material of
    the inner plane; the frame mesh is what becomes the particle. *)
Definition addPhotoToScene (s : Scene) : Rand Scene :=
  if negb (sceneRef s) then ret s
  else
    u <- Math_random ;;
    v <- Math_random ;;
    w <- Math_random ;;
    let frame :=
      mkObject3D (Vector3.new ((u - 0.5) * 50) ((v - 0.5) * 50) ((w - 0.5) * 50))
                 (rotation Mesh_new) (scale Mesh_new) in
    p <- Particle_new frame PHOTO ;;
    ret (set_particles s (particles s ++ [p])).

(** [for (let i = 0; i < n; i++) { const mesh = ...; push(new Particle(mesh, ty)) }] *)
Fixpoint spawn (n : nat) (makeMesh : Rand Object3D) (ty : ParticleType)
         (pool : list Particle) : Rand (list Particle) :=
  match n with
  | O => ret pool
  | S k =>
      m <- makeMesh ;;
      p <- Particle_new m ty ;;
      spawn k makeMesh ty (pool ++ [p])
  end.

Definition needleCount (isMobile : bool) : nat := if isMobile then 600%nat else 1200%nat.
Definition ornamentCount (isMobile : bool) : nat := if isMobile then 400%nat else 800%nat.
Definition snowCount (isMobile : bool) : nat := if isMobile then 800%nat else 2000%nat.

(** The ornament mesh: one draw picks the material. *)
Definition ornamentMesh : Rand Object3D :=
  _ <- Math_random ;;
  ret Mesh_new.

(** The snow mesh, placed at random in a slab above the floor. *)
Definition snowMesh : Rand Object3D :=
  u <- Math_random ;;
  v <- Math_random ;;
  w <- Math_random ;;
  ret (mkObject3D (Vector3.new ((u - 0.5) * 100) (v * 50 - 20) ((w - 0.5) * 100))
                  (rotation Mesh_new) (scale Mesh_new)).

(** [starMesh.rotation.y += 0.02]; [starMesh] is the mesh of the particle
    the mount effect pushes first. *)
Definition spinStar (pool : list Particle) : list Particle :=
  match pool with
  | [] => []
  | star :: rest =>
      let m := mesh star in
      let r := rotation m in
      set_mesh star
        (mkObject3D (position m)
                    (Euler.new (Euler.x r) (Euler.y r + 0.02) (Euler.z r))
                    (scale m)) :: rest
  end.

(** One run of [animate]: every particle is updated, the star spins, the
    group follows the hand or turns idly. *)
Definition animate (mode : AppMode) (handData : option HandData) (time : R)
           (isMobile : bool) (s : Scene) : Scene :=
  let pool := spinStar (map (update mode time isMobile) (particles s)) in
  let g := groupRotation s in
  let g' :=
    match handData with
    | Some h =>
        let gy := MathUtils_lerp (Euler.y g) ((hand_x h - 0.5) * 2.0) 0.1 in
        let gx := MathUtils_lerp (Euler.x g) ((hand_y h - 0.5) * 1.5) 0.1 in
        Euler.new gx gy (Euler.z g)
    | None => Euler.new (Euler.x g) (Euler.y g + 0.003) (Euler.z g)
    end in
  mkScene (sceneRef s) pool g' (photoListener s).

(** The first part of the mount effect, up to the snow loop: the scene is
    created and the pool is filled with the star, the needles, the
    ornaments and the snow. *)
Definition mountPool (isMobile : bool) (s : Scene) : Rand Scene :=
  star <- Particle_new Mesh_new STAR ;;
  pool1 <- spawn (needleCount isMobile) (ret Mesh_new) NEEDLE (particles s ++ [star]) ;;
  pool2 <- spawn (ornamentCount isMobile) ornamentMesh SHAPE pool1 ;;
  pool3 <- spawn (snowCount isMobile) snowMesh DUST pool2 ;;
  ret (mkScene true pool3 (groupRotation s) (photoListener s)).

(** The mount effect.  [container] tells whether [containerRef.current] is
    set; [time] is what the clock reads in the first frame, which [animate()]
    runs before the effect returns.  The greeting card is the first photo. *)
Definition mountEffect (container isMobile : bool) (mode : AppMode)
           (handData : option HandData) (time : R) (s : Scene) : Rand Scene :=
  if negb container then ret s
  else
    s0 <- mountPool isMobile s ;;
    s1 <- addPhotoToScene s0 ;;
    let s2 := animate mode handData time isMobile s1 in
    ret (mkScene (sceneRef s2) (particles s2) (groupRotation s2) true).

(** An ['add-photo'] event whose texture has loaded: the listener, when
    there is one, calls [addPhotoToScene]. *)
Definition onAddPhoto (s : Scene) : Rand Scene :=
  if photoListener s then addPhotoToScene s else ret s.

(** The layout effect on the component state. *)
Definition layoutEffect (mode : AppMode) (isMobile : bool) (s : Scene) : Rand Scene :=
  pool <- layoutPass mode isMobile (particles s) ;;
  ret (set_particles s pool).

(** The states of a mounted component: the mount effect runs once, then
    mode changes, frames and photo events arrive in any order.  A frame may
    run with any mode, hand signal and clock reading, which covers the
    values the loop of the source holds from the render that mounted it. *)
Inductive reachable : Scene -> Prop :=
| reach_mount : forall container isMobile mode hand time g,
    reachable (fst (mountEffect container isMobile mode hand time initialScene g))
| reach_layout : forall s mode isMobile g,
    reachable s -> reachable (fst (layoutEffect mode isMobile s g))
| reach_frame : forall s mode hand time isMobile,
    reachable s -> sceneRef s = true ->
    reachable (animate mode hand time isMobile s)
| reach_photo : forall s g,
    reachable s -> reachable (fst (onAddPhoto s g)).

(** [n] frames in a row with the same mode and hand signal. *)
Fixpoint frames (mode : AppMode) (hand : option HandData) (clock : nat -> R)
         (isMobile : bool) (n : nat) (s : Scene) : Scene :=
  match n with
  | O => s
  | S k =>
      animate mode hand (clock k) isMobile
              (frames mode hand clock isMobile k s)
  end.

(** The states in which the source calls [addPhotoToScene]: once in the
    mount effect, after the pool is built, and then from the listener. *)
Inductive calls_addPhoto : Scene -> Prop :=
| call_in_mount : forall isMobile g,
    calls_addPhoto (fst (mountPool isMobile initialScene g))
| call_in_listener : forall s,
    reachable s -> photoListener s = true -> calls_addPhoto s.

(** The component as the source runs it.  [animate] is defined inside the
    mount effect, whose dependency list is empty, so every frame of the
    loop uses the [mode] and the [handData] of the render that mounted the
    component; the layout effect, which depends on [mode], sees the current
    one. *)
Inductive running (mode0 : AppMode) (hand0 : option HandData) : Scene -> Prop :=
| run_mount : forall container isMobile time g,
    running mode0 hand0
      (fst (mountEffect container isMobile mode0 hand0 time initialScene g))
| run_layout : forall s mode isMobile g,
    running mode0 hand0 s -> running mode0 hand0 (fst (layoutEffect mode isMobile s g))
| run_frame : forall s time isMobile,
    running mode0 hand0 s -> sceneRef s = true ->
    running mode0 hand0 (animate mode0 hand0 time isMobile s)
| run_photo : forall s g,
    running mode0 hand0 s -> running mode0 hand0 (fst (onAddPhoto s g)).

End Integrator.

(** ** The hand detector ([VisionService.detect]) *)

(** A normalized landmark of the hand model. *)
Record Landmark : Type := mkLandmark { lm_x : R; lm_y : R; lm_z : R }.

(** What one call of [detect] does: it returns [null], returns a hand, or
    throws a [TypeError] on reading a landmark that is not there. *)
Inductive Detection : Type :=
| NoHand
| Hand (h : HandData)
| Threw.

(** [Math.hypot(a, b)] *)
Definition Math_hypot (a b : R) : R := sqrt (a * a + b * b).

(** [const tips = [8, 12, 16, 20]] *)
Definition tips : list nat := [8; 12; 16; 20]%nat.

(** [ts.forEach(t => { totalDist += Math.hypot(landmarks[t].x - wrist.x,
    landmarks[t].y - wrist.y) })], from the running [totalDist]; [None] when
    some [landmarks[t]] is undefined. *)
Fixpoint sumTips (landmarks : list Landmark) (wrist : Landmark) (ts : list nat)
         (totalDist : R) : option R :=
  match ts with
  | [] => Some totalDist
  | t :: rest =>
      match nth_error landmarks t with
      | Some tip =>
          sumTips landmarks wrist rest
            (totalDist + Math_hypot (lm_x tip - lm_x wrist) (lm_y tip - lm_y wrist))
      | None => None
      end
  end.

(** [a < b] as a JavaScript boolean. *)
Definition Rltb (a b : R) : bool := if Rlt_dec a b then true else false.

(** The body of [detect] once a hand is there: [landmarks = results.landmarks[0]]. *)
Definition readHand (landmarks : list Landmark) : Detection :=
  match nth_error landmarks 4, nth_error landmarks 8,
        nth_error landmarks 0, nth_error landmarks 9 with
  | Some thumb, Some index, Some wrist, Some palmCenter =>
      let pinchDist :=
        Math_hypot (lm_x thumb - lm_x index) (lm_y thumb - lm_y index) in
      match sumTips landmarks wrist tips 0 with
      | Some totalDist =>
          let avgDist := totalDist / INR (length tips) in
          Hand {| hand_x := lm_x palmCenter;
                  hand_y := lm_y palmCenter;
                  pinch := Rltb pinchDist 0.05;
                  fist := Rltb avgDist 0.22;
                  open := Rltb 0.38 avgDist |}
      | None => Threw
      end
  | _, _, _, _ => Threw
  end.

(** [detect()].  [handLandmarker] tells whether the model is loaded,
    [readyState] is [video.readyState], and [results] is the [landmarks]
    field of what [detectForVideo] returns (absent, or one landmark list per
    hand). *)
Definition detect (handLandmarker : bool) (readyState : Z)
           (results : option (list (list Landmark))) : Detection :=
  if negb handLandmarker || (readyState <? 2)%Z then NoHand
  else
    match results with
    | Some (landmarks :: _) => readHand landmarks
    | _ => NoHand
    end.

(** ** src/App.tsx: the state and its updates *)

Module App.

Record AppState : Type := mkAppState {
  mode : AppMode;
  handData : option HandData;
  uiVisible : bool;
  isLoaded : bool
}.

(** The initial state of [useState]. *)
Definition initial : AppState := mkAppState TREE None true false.

(** The update of the ['h'] key and of the eye button. *)
Definition toggleUi (prev : AppState) : AppState :=
  mkAppState (mode prev) (handData prev) (negb (uiVisible prev)) (isLoaded prev).

(** The update of [handleLoaded]. *)
Definition loaded (prev : AppState) : AppState :=
  mkAppState (mode prev) (handData prev) (uiVisible prev) true.

(** The update of the [detect] loop for a non-null [result]. *)
Definition gesture (result : HandData) (prev : AppState) : AppState :=
  let nextMode :=
    if fist result then TREE
    else if open result then SCATTER
    else if pinch result then FOCUS
    else mode prev in
  mkAppState nextMode (Some result) (uiVisible prev) (isLoaded prev).

(** One turn of the [detect] loop: [if (result) setState(...)]. *)
Definition onDetect (result : Detection) (prev : AppState) : AppState :=
  match result with
  | Hand h => gesture h prev
  | _ => prev
  end.

Definition modes : list AppMode := [TREE; SCATTER; FOCUS].

(** [arr.indexOf(m)], counting from [i]. *)
Fixpoint indexOfFrom (m : AppMode) (arr : list AppMode) (i : Z) : Z :=
  match arr with
  | [] => (-1)%Z
  | a :: rest => if AppMode_eqb a m then i else indexOfFrom m rest (i + 1)%Z
  end.

(** [arr[i]]; [None] is [undefined]. *)
Definition at_ (arr : list AppMode) (i : Z) : option AppMode :=
  if (i <? 0)%Z then None else nth_error arr (Z.to_nat i).

(** The update of [toggleMode]; [None] when [modes[nextIdx]] is undefined. *)
Definition toggleMode (prev : AppState) : option AppState :=
  let nextIdx :=
    Z.rem (indexOfFrom (mode prev) modes 0 + 1) (Z.of_nat (length modes)) in
  match at_ modes nextIdx with
  | Some m => Some (mkAppState m (handData prev) (uiVisible prev) (isLoaded prev))
  | None => None
  end.

(** One update of the state. *)
Inductive step : AppState -> AppState -> Prop :=
| step_toggleUi : forall s, step s (toggleUi s)
| step_loaded : forall s, step s (loaded s)
| step_detect : forall s handLandmarker readyState results,
    step s (onDetect (detect handLandmarker readyState results) s)
| step_toggleMode : forall s s', toggleMode s = Some s' -> step s s'.

(** The states the component goes through. *)
Inductive reachable : AppState -> Prop :=
| reach_initial : reachable initial
| reach_toggleUi : forall s, reachable s -> reachable (toggleUi s)
| reach_loaded : forall s, reachable s -> reachable (loaded s)
| reach_detect : forall s handLandmarker readyState results,
    reachable s -> reachable (onDetect (detect handLandmarker readyState results) s)
| reach_toggleMode : forall s s',
    reachable s -> toggleMode s = Some s' -> reachable s'.

End App.

(** * Vocabulary of the properties *)

(** A computation that only advances the cursor of the source. *)
Definition advances {A : Type} (m : Rand A) : Prop :=
  forall g, draws (snd (m g)) = draws g.

(** A loop body that leaves the type of the particle alone. *)
Definition keeps_type (body : Particle -> nat -> Rand Particle) : Prop :=
  forall p i g, type (fst (body p i g)) = type p.

Definition body_advances (body : Particle -> nat -> Rand Particle) : Prop :=
  forall p i, advances (body p i).

(** Whether [update] moves the target position: it does for the snow,
    outside FOCUS, and for nothing else. *)
Definition drifts (mode : AppMode) (p : Particle) : bool :=
  ParticleType_eqb (type p) DUST && negb (AppMode_eqb mode FOCUS).

Definition in_spawn_cube (v : Vector3.t) : Prop :=
  -25 <= Vector3.x v <= 25 /\ -25 <= Vector3.y v <= 25 /\ -25 <= Vector3.z v <= 25.

(** The types of the pool of a mounted component: the star, the needles,
    the ornaments, the snow, then the photos, of which there is at least
    the greeting card. *)
Definition pool_shape (tys : list ParticleType) : Prop :=
  exists isMobile k,
    tys = STAR :: repeat NEEDLE (needleCount isMobile)
            ++ repeat SHAPE (ornamentCount isMobile)
            ++ repeat DUST (snowCount isMobile)
            ++ repeat PHOTO (S k).

(** A photo keeps the unit base scale of its frame mesh. *)
Definition photo_unit (q : Particle) : Prop := type q = PHOTO -> baseScale q = 1.

(** What holds of every state of a mounted component. *)
Definition scene_inv (s : Scene) : Prop :=
  photoListener s = sceneRef s
  /\ (if sceneRef s then pool_shape (map type (particles s)) else particles s = [])
  /\ Forall photo_unit (particles s).

(** A loop body whose use of the source does not depend on the particle. *)
Definition oblivious (body : Particle -> nat -> Rand Particle) : Prop :=
  forall p q i g, snd (body p i g) = snd (body q i g).

(** A loop body that writes the same fields whatever they held. *)
Definition overwrites (body : Particle -> nat -> Rand Particle) : Prop :=
  forall p i g, fst (body (fst (body p i g)) i g) = fst (body p i g).

(** A pool on which a pass changes nothing. *)
Definition settled (ty : ParticleType) (body : Particle -> nat -> Rand Particle)
           (i : nat) (g : Rng) (pool : list Particle) : Prop :=
  fst (forEachOf ty body i pool g) = pool.

(** A particle with the components that the TREE pass draws at random
    blanked out: the target pitch and roll of a needle, the target height
    of a photo. *)
Definition withoutTreeDraws (p : Particle) : Particle :=
  match type p with
  | NEEDLE => set_targetRot p (Euler.new 0 (Euler.y (targetRot p)) 0)
  | PHOTO =>
      set_targetPos p
        (Vector3.new (Vector3.x (targetPos p)) 0 (Vector3.z (targetPos p)))
  | _ => p
  end.

(** The first particle of a type, when there is one. *)
Definition firstOf (ty : ParticleType) (pool : list Particle) (j : nat) : Prop :=
  forall k q, (k < j)%nat -> nth_error pool k = Some q -> isType ty q = false.

(** What a layout pass never writes: the mesh (the current transform), the
    type and the twinkle, velocity and base-scale parameters. *)
Definition sameBody (p p' : Particle) : Prop :=
  mesh p' = mesh p /\ type p' = type p
  /\ twinkleOffset p' = twinkleOffset p /\ twinkleSpeed p' = twinkleSpeed p
  /\ velocity p' = velocity p /\ baseScale p' = baseScale p.

(** The three components of a vector lie between two bounds. *)
Definition boxed (lo hi : R) (v : Vector3.t) : Prop :=
  lo <= Vector3.x v <= hi /\ lo <= Vector3.y v <= hi /\ lo <= Vector3.z v <= hi.

(** Where the mount effect puts a particle, by type: the snow in its slab,
    a photo in its cube, the star, the needles and the ornaments at the
    origin. *)
Definition spawn_ok (p : Particle) : Prop :=
  match type p with
  | DUST =>
      -50 <= Vector3.x (position (mesh p)) < 50
      /\ -20 <= Vector3.y (position (mesh p)) < 30
      /\ -50 <= Vector3.z (position (mesh p)) < 50
  | PHOTO => in_spawn_cube (position (mesh p))
  | _ => position (mesh p) = Vector3.zero
  end.

(** The distance in the image plane between two landmarks. *)
Definition planeDist (a b : Landmark) : R :=
  Math_hypot (lm_x a - lm_x b) (lm_y a - lm_y b).

(** A landmark moved by [(dx, dy, dz)]. *)
Definition shift (dx dy dz : R) (l : Landmark) : Landmark :=
  mkLandmark (lm_x l + dx) (lm_y l + dy) (lm_z l + dz).

(** The average distance of the four fingertips from the wrist. *)
Definition tipSpread (landmarks : list Landmark) : option R :=
  match nth_error landmarks 0, nth_error landmarks 8, nth_error landmarks 12,
        nth_error landmarks 16, nth_error landmarks 20 with
  | Some wrist, Some t8, Some t12, Some t16, Some t20 =>
      Some ((planeDist t8 wrist + planeDist t12 wrist + planeDist t16 wrist
             + planeDist t20 wrist) / 4)
  | _, _, _, _, _ => None
  end.

(** ** Concrete values for the runs *)

(** A source that always yields 0, and one that yields 0 twice and then 1/2. *)
Definition zeroDraws : Rng := mkRng (fun _ => 0) 0.

Definition lateDraws : Rng :=
  mkRng (fun n => match n with O => 0 | S O => 0 | _ => / 2 end) 0.

(** An orientation model for the runs below: the mesh keeps its rotation. *)
Definition still (cur _ : Euler.t) (_ : R) : Euler.t := cur.

(** The particle the constructor builds on a fresh mesh. *)
Definition sample (ty : ParticleType) : Particle :=
  fst (Particle_new Mesh_new ty zeroDraws).

Definition smallPool : list Particle :=
  [sample STAR; sample NEEDLE; sample NEEDLE; sample SHAPE; sample DUST; sample PHOTO].

Definition fourPhotos : list Particle :=
  [sample PHOTO; sample PHOTO; sample PHOTO; sample PHOTO].

Definition awayNeedle : Particle := set_targetPos (sample NEEDLE) (Vector3.new 1 2 3).

Definition lowSnow : Particle := set_targetPos (sample DUST) (Vector3.new 0 (-19.995) 0).

(** A pool without photos, and a hand whose landmarks coincide. *)
Definition starAndSnow : list Particle := [sample STAR; sample DUST].

Definition closedHand : list Landmark := repeat (mkLandmark 0.5 0.5 0) 21.

(** * Properties *)

(** ** The monad *)

Lemma bind_fst : forall A B (m : Rand A) (k : A -> Rand B) g,
  fst (bind m k g) = fst (k (fst (m g)) (snd (m g))).
Proof. intros; unfold bind; destruct (m g); reflexivity. Qed.

Lemma bind_snd : forall A B (m : Rand A) (k : A -> Rand B) g,
  snd (bind m k g) = snd (k (fst (m g)) (snd (m g))).
Proof. intros; unfold bind; destruct (m g); reflexivity. Qed.

Lemma advances_ret : forall A (a : A), advances (ret a).
Proof. intros A a g; reflexivity. Qed.

Lemma advances_random : advances Math_random.
Proof. intros g; reflexivity. Qed.

Lemma advances_bind : forall A B (m : Rand A) (k : A -> Rand B),
  advances m -> (forall a, advances (k a)) -> advances (bind m k).
Proof.
  intros A B m k Hm Hk g. rewrite bind_snd, Hk. apply Hm.
Qed.

Create HintDb rand.

#[local] Hint Resolve advances_ret advances_random advances_bind : rand.

Lemma unit_draws_same : forall g g',
  draws g' = draws g -> unit_draws g -> unit_draws g'.
Proof. intros g g' E H n. rewrite E. apply H. Qed.

Lemma random_unit : forall g, unit_draws g -> 0 <= fst (Math_random g) < 1.
Proof. intros g H. apply H. Qed.

(** ** Types and partitions *)

Lemma ParticleType_eqb_eq : forall a b, ParticleType_eqb a b = true <-> a = b.
Proof. intros [] []; simpl; split; intro H; try reflexivity; discriminate. Qed.

Lemma ParticleType_eqb_refl : forall a, ParticleType_eqb a a = true.
Proof. intros []; reflexivity. Qed.

Lemma ParticleType_eqb_neq : forall a b, ParticleType_eqb a b = false <-> a <> b.
Proof.
  intros a b; split.
  - intros H E. subst. rewrite ParticleType_eqb_refl in H. discriminate.
  - intros H. destruct (ParticleType_eqb a b) eqn:E; [|reflexivity].
    apply ParticleType_eqb_eq in E. contradiction.
Qed.

Lemma forEach_advances : forall body, body_advances body ->
  forall arr i, advances (forEach body i arr).
Proof.
  intros body Hb arr; induction arr as [|p rest IH]; intros i; simpl; auto with rand.
Qed.

Lemma forEachOf_advances : forall ty body, body_advances body ->
  forall pool i, advances (forEachOf ty body i pool).
Proof.
  intros ty body Hb pool; induction pool as [|p rest IH]; intros i; simpl;
    [auto with rand|].
  destruct (isType ty p); auto with rand.
Qed.

Lemma forEach_length : forall body arr i g,
  length (fst (forEach body i arr g)) = length arr.
Proof.
  intros body arr; induction arr as [|p rest IH]; intros i g; simpl; [reflexivity|].
  rewrite !bind_fst. simpl. now rewrite IH.
Qed.

Lemma forEachOf_length : forall ty body pool i g,
  length (fst (forEachOf ty body i pool g)) = length pool.
Proof.
  intros ty body pool; induction pool as [|p rest IH]; intros i g; simpl; [reflexivity|].
  destruct (isType ty p); rewrite !bind_fst; simpl; now rewrite IH.
Qed.

(** The pass over the pool and the [forEach] over the filtered array are
    the same loop: same draws, same particles of the visited type. *)
Lemma forEachOf_partition : forall ty body, keeps_type body ->
  forall pool i g,
    partition ty (fst (forEachOf ty body i pool g))
      = fst (forEach body i (partition ty pool) g)
    /\ snd (forEachOf ty body i pool g) = snd (forEach body i (partition ty pool) g).
Proof.
  intros ty body Hk pool; induction pool as [|p rest IH]; intros i g; simpl.
  - split; reflexivity.
  - destruct (isType ty p) eqn:E; simpl.
    + rewrite !bind_fst, !bind_snd. simpl.
      unfold isType at 1. rewrite Hk. fold (isType ty p). rewrite E.
      destruct (IH (S i) (snd (body p i g))) as [IH1 IH2].
      unfold partition in *. rewrite IH1, IH2. split; reflexivity.
    + rewrite !bind_fst, !bind_snd. simpl. rewrite E. apply IH.
Qed.

(** The particles of the other types are not touched, neither in their
    partition nor at their place in the pool. *)
Lemma forEachOf_other_nth : forall ty body pool i g j p,
  nth_error pool j = Some p -> isType ty p = false ->
  nth_error (fst (forEachOf ty body i pool g)) j = Some p.
Proof.
  intros ty body pool; induction pool as [|q rest IH]; intros i g j p Hj Hp.
  - destruct j; discriminate.
  - simpl. destruct j as [|j]; simpl in Hj.
    + injection Hj as ->. rewrite Hp. rewrite bind_fst. reflexivity.
    + destruct (isType ty q); rewrite !bind_fst; simpl; now apply IH.
Qed.

Lemma forEachOf_other_partition : forall ty ty' body, keeps_type body -> ty' <> ty ->
  forall pool i g,
    partition ty' (fst (forEachOf ty body i pool g)) = partition ty' pool.
Proof.
  intros ty ty' body Hk Hne pool. unfold partition.
  induction pool as [|p rest IH]; intros i g; simpl.
  - reflexivity.
  - destruct (isType ty p) eqn:E; rewrite !bind_fst; simpl; rewrite IH.
    + apply ParticleType_eqb_eq in E.
      assert (F : ParticleType_eqb (type p) ty' = false)
        by (apply ParticleType_eqb_neq; congruence).
      unfold isType. rewrite Hk, F. reflexivity.
    + reflexivity.
Qed.

Lemma forEachOf_type_nth : forall ty body, keeps_type body ->
  forall pool i g j p',
    nth_error (fst (forEachOf ty body i pool g)) j = Some p' ->
    exists p, nth_error pool j = Some p /\ type p' = type p.
Proof.
  intros ty body Hk pool; induction pool as [|q rest IH]; intros i g j p' Hj.
  - destruct j; discriminate.
  - simpl in Hj. destruct (isType ty q); rewrite !bind_fst in Hj; simpl in Hj;
      destruct j as [|j]; simpl in *.
    + injection Hj as <-. eexists; split; [reflexivity|apply Hk].
    + eapply IH; eassumption.
    + injection Hj as <-. eexists; split; reflexivity.
    + eapply IH; eassumption.
Qed.

(** What the [k]-th iteration of a [forEach] leaves in the array. *)
Lemma forEach_nth : forall body, body_advances body ->
  forall arr i g k p,
    nth_error arr k = Some p ->
    exists g', draws g' = draws g
      /\ nth_error (fst (forEach body i arr g)) k = Some (fst (body p (i + k)%nat g')).
Proof.
  intros body Hb arr; induction arr as [|q rest IH]; intros i g k p Hk.
  - destruct k; discriminate.
  - simpl. rewrite !bind_fst. simpl. destruct k as [|k]; simpl in *.
    + injection Hk as ->. exists g. rewrite Nat.add_0_r. split; reflexivity.
    + destruct (IH (S i) (snd (body q i g)) k p Hk) as [g' [E1 E2]].
      exists g'. split.
      * rewrite E1. apply Hb.
      * rewrite E2. replace (i + S k)%nat with (S i + k)%nat by lia. reflexivity.
Qed.

Lemma withFound_length : forall ty change pool,
  length (withFound ty change pool) = length pool.
Proof.
  intros ty change pool; induction pool as [|p rest IH]; simpl; [reflexivity|].
  destruct (isType ty p); simpl; now rewrite ?IH.
Qed.

Lemma withFound_other_nth : forall ty change pool j p,
  nth_error pool j = Some p -> isType ty p = false ->
  nth_error (withFound ty change pool) j = Some p.
Proof.
  intros ty change pool; induction pool as [|q rest IH]; intros j p Hj Hp.
  - destruct j; discriminate.
  - simpl. destruct j as [|j]; simpl in Hj.
    + injection Hj as ->. now rewrite Hp.
    + destruct (isType ty q); simpl; [assumption | now apply IH].
Qed.

Lemma withFound_other_partition : forall ty ty' change,
  (forall p, type (change p) = type p) -> ty' <> ty ->
  forall pool, partition ty' (withFound ty change pool) = partition ty' pool.
Proof.
  intros ty ty' change Hc Hne pool. unfold partition.
  induction pool as [|p rest IH]; simpl.
  - reflexivity.
  - destruct (isType ty p) eqn:E; simpl.
    + apply ParticleType_eqb_eq in E.
      assert (F : ParticleType_eqb (type p) ty' = false)
        by (apply ParticleType_eqb_neq; congruence).
      unfold isType. rewrite Hc, F. reflexivity.
    + now rewrite IH.
Qed.

(** ** The loop bodies of the layout effect *)

Ltac run_body :=
  unfold treeNeedle, treeShape, treePhoto, scatterOne, focusPhoto,
         bind, Math_random, ret; simpl.

Lemma treeNeedle_keeps_type : forall count, keeps_type (treeNeedle count).
Proof. intros count p i g. reflexivity. Qed.

Lemma treeShape_keeps_type : forall count, keeps_type (treeShape count).
Proof. intros count p i g. reflexivity. Qed.

Lemma treePhoto_keeps_type : forall m count, keeps_type (treePhoto m count).
Proof. intros m count p i g. reflexivity. Qed.

Lemma scatterOne_keeps_type : keeps_type scatterOne.
Proof. intros p i g. reflexivity. Qed.

Lemma focusPhoto_keeps_type : forall m idx, keeps_type (focusPhoto m idx).
Proof. intros m idx p i g. unfold focusPhoto. destruct (Z.eqb _ _); reflexivity. Qed.

Lemma treeNeedle_advances : forall count, body_advances (treeNeedle count).
Proof. intros count p i g. reflexivity. Qed.

Lemma treeShape_advances : forall count, body_advances (treeShape count).
Proof. intros count p i g. reflexivity. Qed.

Lemma treePhoto_advances : forall m count, body_advances (treePhoto m count).
Proof. intros m count p i g. reflexivity. Qed.

Lemma scatterOne_advances : body_advances scatterOne.
Proof. intros p i g. reflexivity. Qed.

Lemma focusPhoto_advances : forall m idx, body_advances (focusPhoto m idx).
Proof. intros m idx p i g. unfold focusPhoto. destruct (Z.eqb _ _); reflexivity. Qed.

Lemma starTo_type : forall a b c p, type (starTo a b c p) = type p.
Proof. reflexivity. Qed.

#[local] Hint Resolve treeNeedle_keeps_type treeShape_keeps_type
  treePhoto_keeps_type scatterOne_keeps_type focusPhoto_keeps_type
  treeNeedle_advances treeShape_advances treePhoto_advances
  scatterOne_advances focusPhoto_advances starTo_type : rand.

Lemma layoutPass_layout : forall mode m pool p i,
  nth_error pool i = Some p ->
  layoutPass mode m pool = layout mode m pool.
Proof. intros mode m [|q rest] p i H; [destruct i; discriminate | reflexivity]. Qed.

Lemma partition_nonempty : forall ty pool i p,
  nth_error (partition ty pool) i = Some p -> exists q j, nth_error pool j = Some q.
Proof.
  intros ty [|q rest] i p H.
  - destruct i; discriminate.
  - exists q, 0%nat. reflexivity.
Qed.

(** The three partitions after a TREE pass, each as the [forEach] of the
    source over the array [filter] returned. *)
Lemma tree_needles : forall m pool g,
  partition NEEDLE (fst (layout TREE m pool g))
  = fst (forEach (treeNeedle (length (partition NEEDLE pool))) 0
           (partition NEEDLE pool) g).
Proof.
  intros m pool g. unfold layout. rewrite !bind_fst.
  rewrite forEachOf_other_partition by (auto with rand; discriminate).
  rewrite forEachOf_other_partition by (auto with rand; discriminate).
  destruct (forEachOf_partition NEEDLE (treeNeedle (length (partition NEEDLE pool)))
              (treeNeedle_keeps_type _) (withFound STAR (starTo 0 16.5 0) pool) 0%nat g)
    as [E _].
  rewrite E.
  rewrite withFound_other_partition by (auto with rand; discriminate).
  reflexivity.
Qed.

Lemma tree_photos : forall m pool g,
  exists g', draws g' = draws g
    /\ partition PHOTO (fst (layout TREE m pool g))
       = fst (forEach (treePhoto m (length (partition PHOTO pool))) 0
                (partition PHOTO pool) g').
Proof.
  intros m pool g. unfold layout. rewrite !bind_fst.
  set (pool0 := withFound STAR (starTo 0 16.5 0) pool).
  set (r1 := forEachOf NEEDLE _ 0%nat pool0 g).
  set (r2 := forEachOf SHAPE _ 0%nat (fst r1) (snd r1)).
  exists (snd r2). split.
  - unfold r2. rewrite forEachOf_advances by auto with rand.
    unfold r1. rewrite forEachOf_advances by auto with rand. reflexivity.
  - destruct (forEachOf_partition PHOTO (treePhoto m (length (partition PHOTO pool)))
                (treePhoto_keeps_type _ _) (fst r2) 0%nat (snd r2)) as [E _].
    rewrite E. f_equal.
    unfold r2. rewrite forEachOf_other_partition by (auto with rand; discriminate).
    unfold r1. rewrite forEachOf_other_partition by (auto with rand; discriminate).
    unfold pool0. rewrite withFound_other_partition by (auto with rand; discriminate).
    reflexivity.
Qed.

(** ** Real-number facts used by the layouts *)

Lemma polar_axis : forall a r, 0 <= r ->
  sqrt ((cos a * r) * (cos a * r) + (sin a * r) * (sin a * r)) = r.
Proof.
  intros a r Hr.
  replace ((cos a * r) * (cos a * r) + (sin a * r) * (sin a * r))
    with ((Rsqr (sin a) + Rsqr (cos a)) * (r * r)) by (unfold Rsqr; ring).
  rewrite sin2_cos2, Rmult_1_l. now apply sqrt_square.
Qed.

Lemma Rpower_one_base : forall e, Rpower 1 e = 1.
Proof. intros e. unfold Rpower. rewrite ln_1, Rmult_0_r. apply exp_0. Qed.

Lemma Rpower_pos : forall b e, 0 < Rpower b e.
Proof. intros b e. unfold Rpower. apply exp_pos. Qed.

(** Below 1 a larger exponent gives a smaller power. *)
Lemma Rpower_le_base : forall b e, 0 < b <= 1 -> 1 <= e -> Rpower b e <= b.
Proof.
  intros b e [Hb0 Hb1] He.
  rewrite <- (Rpower_1 b Hb0) at 2. unfold Rpower.
  assert (Hln : ln b <= 0).
  { destruct Hb1 as [Hlt | ->]; [|rewrite ln_1; lra].
    left. rewrite <- ln_1. now apply ln_increasing. }
  destruct (Req_dec (e * ln b) (1 * ln b)) as [-> | Hne]; [lra|].
  left. apply exp_increasing. nra.
Qed.

Lemma INR_pos_of_nth : forall (A : Type) (l : list A) i a,
  nth_error l i = Some a -> (INR i < INR (length l)) /\ 0 < INR (length l).
Proof.
  intros A l i a H.
  assert (Hlt : (i < length l)%nat) by (apply nth_error_Some; congruence).
  split.
  - now apply lt_INR.
  - apply lt_0_INR. lia.
Qed.

(** ** TREE layout: the needle cone *)

(** C1.  In TREE mode the layout pass gives the needle at index [i] of a
    needle partition of size [count], with [t = i/count], the target
    position at distance [9 * (1-t)^1.3] from the vertical axis, at angle
    [t * 50 * PI] (also its target yaw) and height [t * 28 - 12].  The
    needle at index 0 has height -12 and radius 9.  The needle at index
    [count - 1] has height [16 - 28/count] and radius [9 * (1/count)^1.3],
    which is at most [9/count]: both tend to 16 and 0 as the partition
    grows, and for the partitions the mount effect builds (600 or 1200
    needles) the height is above 15.95 and the radius at most 0.015. *)
Theorem tree_needle_cone : forall isMobile pool g i p,
  nth_error (partition NEEDLE pool) i = Some p ->
  let count := length (partition NEEDLE pool) in
  let t := INR i / INR count in
  let radius := 9 * Rpower (1 - t) 1.3 in
  let angle := t * 50 * PI in
  exists p',
    nth_error (partition NEEDLE (fst (layoutPass TREE isMobile pool g))) i = Some p'
    /\ Math_pow (1 - t) 1.3 = Rpower (1 - t) 1.3
    /\ targetPos p'
       = Vector3.new (cos angle * radius) (t * 28 - 12) (sin angle * radius)
    /\ Vector3.axisDistance (targetPos p') = radius
    /\ Euler.y (targetRot p') = angle
    /\ (i = 0%nat ->
        Vector3.y (targetPos p') = -12 /\ Vector3.axisDistance (targetPos p') = 9)
    /\ (S i = count ->
        Vector3.y (targetPos p') = 16 - 28 / INR count
        /\ Vector3.axisDistance (targetPos p') = 9 * Rpower (/ INR count) 1.3
        /\ 0 < Vector3.axisDistance (targetPos p') <= 9 / INR count
        /\ ((600 <= count)%nat ->
            15.95 < Vector3.y (targetPos p') < 16
            /\ Vector3.axisDistance (targetPos p') <= 0.015)).
Proof.
  intros isMobile pool g i p Hi count t radius angle.
  destruct (partition_nonempty _ _ _ _ Hi) as [q [j Hq]].
  rewrite (layoutPass_layout _ _ _ _ _ Hq), tree_needles.
  destruct (forEach_nth (treeNeedle count) (treeNeedle_advances count)
              (partition NEEDLE pool) 0%nat g i p Hi) as [g' [_ Hn]].
  destruct (INR_pos_of_nth _ _ _ _ Hi) as [Hlt Hpos].
  fold count in Hlt, Hpos, Hn |- *.
  assert (Ht : 0 <= t < 1).
  { unfold t. split.
    - apply Rmult_le_pos; [apply pos_INR | left; now apply Rinv_0_lt_compat].
    - apply (Rmult_lt_reg_r (INR count)); [assumption|].
      unfold Rdiv. rewrite Rmult_assoc, Rinv_l by lra. lra. }
  assert (Hpow : Math_pow (1 - t) 1.3 = Rpower (1 - t) 1.3).
  { unfold Math_pow. destruct (Rlt_dec 0 (1 - t)); [reflexivity | lra]. }
  assert (Hrad : 0 < radius).
  { unfold radius. apply Rmult_lt_0_compat; [lra | apply Rpower_pos]. }
  set (p' := fst (treeNeedle count p (0 + i) g')) in *.
  assert (Hpos' : targetPos p'
                  = Vector3.new (cos angle * radius) (t * 28 - 12) (sin angle * radius)).
  { unfold p'. run_body. fold t. rewrite Hpow. reflexivity. }
  assert (Haxis : Vector3.axisDistance (targetPos p') = radius).
  { rewrite Hpos'. unfold Vector3.axisDistance. simpl. apply polar_axis. lra. }
  assert (Hlast : S i = count -> 1 - t = / INR count /\ 0 < / INR count <= 1).
  { intros H. split.
    - unfold t. rewrite <- H, S_INR. field. rewrite <- S_INR, H. lra.
    - split; [now apply Rinv_0_lt_compat|].
      rewrite <- Rinv_1. apply Rinv_le_contravar; [lra|].
      rewrite <- H, S_INR. pose proof (pos_INR i). lra. }
  exists p'. split; [assumption|]. split; [assumption|]. split; [assumption|].
  split; [assumption|]. split; [unfold p'; run_body; reflexivity|]. split.
  - intros H. split.
    + rewrite Hpos'. simpl. unfold t. rewrite H. simpl. lra.
    + rewrite Haxis. unfold radius, t. rewrite H. simpl.
      replace (1 - 0 / INR count) with 1 by (unfold Rdiv; ring).
      rewrite Rpower_one_base. lra.
  - intros H. destruct (Hlast H) as [E Hinv].
    pose proof (Rpower_le_base (/ INR count) 1.3 Hinv ltac:(lra)) as Hle.
    assert (Ey : Vector3.y (targetPos p') = 16 - 28 / INR count).
    { rewrite Hpos'. simpl. replace t with (1 - (1 - t)) by ring. rewrite E.
      unfold Rdiv. ring. }
    assert (Er : Vector3.axisDistance (targetPos p') = 9 * Rpower (/ INR count) 1.3).
    { rewrite Haxis. unfold radius. now rewrite E. }
    split; [assumption|]. split; [assumption|]. split.
    + rewrite Er. pose proof (Rpower_pos (/ INR count) 1.3). unfold Rdiv. lra.
    + intros Hbig. rewrite Ey, Er.
      assert (Hc : 600 <= INR count).
      { replace 600 with (INR 600) by (rewrite INR_IZR_INZ; reflexivity).
        now apply le_INR. }
      assert (Hi600 : / INR count <= / 600) by (apply Rinv_le_contravar; lra).
      unfold Rdiv. lra.
Qed.

(** ** The integrator: exponential smoothing *)

Lemma lerp_distance : forall a v f, 0 <= f <= 1 ->
  Vector3.distanceTo (Vector3.lerp a v f) v = (1 - f) * Vector3.distanceTo a v.
Proof.
  intros a v f Hf. unfold Vector3.distanceTo, Vector3.lerp. simpl.
  set (dx := Vector3.x a - Vector3.x v).
  set (dy := Vector3.y a - Vector3.y v).
  set (dz := Vector3.z a - Vector3.z v).
  replace ((Vector3.x a + (Vector3.x v - Vector3.x a) * f - Vector3.x v)
           * (Vector3.x a + (Vector3.x v - Vector3.x a) * f - Vector3.x v)
           + (Vector3.y a + (Vector3.y v - Vector3.y a) * f - Vector3.y v)
             * (Vector3.y a + (Vector3.y v - Vector3.y a) * f - Vector3.y v)
           + (Vector3.z a + (Vector3.z v - Vector3.z a) * f - Vector3.z v)
             * (Vector3.z a + (Vector3.z v - Vector3.z a) * f - Vector3.z v))
    with (((1 - f) * (1 - f)) * (dx * dx + dy * dy + dz * dz))
    by (unfold dx, dy, dz; ring).
  rewrite sqrt_mult_alt by nra.
  rewrite sqrt_square by lra. reflexivity.
Qed.

Lemma distanceTo_nonneg : forall a v, 0 <= Vector3.distanceTo a v.
Proof. intros a v. apply sqrt_pos. Qed.

Lemma distanceTo_self : forall a, Vector3.distanceTo a a = 0.
Proof.
  intros a. unfold Vector3.distanceTo.
  replace (_ + _ + _) with 0 by ring. apply sqrt_0.
Qed.

Lemma lerp_self : forall a f, Vector3.lerp a a f = a.
Proof.
  intros [ax ay az] f. unfold Vector3.lerp. simpl. f_equal; ring.
Qed.

Lemma lerpFactor_range : forall mode, 0 < lerpFactor mode < 1.
Proof. intros []; unfold lerpFactor; simpl; lra. Qed.

Section IntegratorFacts.

Variable slerp : Euler.t -> Euler.t -> R -> Euler.t.

Lemma update_type : forall mode time m p,
  type (update slerp mode time m p) = type p.
Proof. reflexivity. Qed.

Lemma update_position : forall mode time m p,
  position (mesh (update slerp mode time m p))
  = Vector3.lerp (position (mesh p)) (targetPos p) (lerpFactor mode).
Proof. reflexivity. Qed.

Lemma update_target_held : forall mode time m p,
  drifts mode p = false ->
  targetPos (update slerp mode time m p) = targetPos p.
Proof.
  intros mode time m p H. unfold update, drifts in *. simpl. now rewrite H.
Qed.

Lemma update_targets_rot_scale : forall mode time m p,
  targetRot (update slerp mode time m p) = targetRot p
  /\ targetScale (update slerp mode time m p) = targetScale p
  /\ baseScale (update slerp mode time m p) = baseScale p
  /\ velocity (update slerp mode time m p) = velocity p.
Proof. intros; repeat split; reflexivity. Qed.

Lemma ticks_type : forall mode clock m n p,
  type (ticks slerp mode clock m n p) = type p.
Proof.
  intros mode clock m n p; induction n as [|n IH]; [reflexivity|].
  change (ticks slerp mode clock m (S n) p)
    with (update slerp mode (clock n) m (ticks slerp mode clock m n p)).
  now rewrite update_type.
Qed.

Lemma ticks_target_held : forall mode clock m p,
  drifts mode p = false ->
  forall n, targetPos (ticks slerp mode clock m n p) = targetPos p.
Proof.
  intros mode clock m p H n; induction n as [|n IH]; [reflexivity|].
  change (ticks slerp mode clock m (S n) p)
    with (update slerp mode (clock n) m (ticks slerp mode clock m n p)).
  rewrite update_target_held; [assumption|].
  unfold drifts in *. now rewrite ticks_type.
Qed.

Lemma geometric_to_zero : forall q d0 (u : nat -> R),
  0 <= q < 1 -> 0 <= d0 -> (forall n, u n = q ^ n * d0) -> Un_cv u 0.
Proof.
  intros q d0 u Hq Hd Hu eps Heps.
  destruct (Req_dec d0 0) as [-> | Hne].
  - exists 0%nat. intros n _. rewrite Hu, Rmult_0_r.
    unfold Rdist. rewrite Rminus_0_r, Rabs_R0. assumption.
  - assert (Hd0 : 0 < d0) by lra.
    assert (Hy : 0 < eps / d0) by (apply Rdiv_lt_0_compat; lra).
    destruct (pow_lt_1_zero q) with (y := eps / d0) as [N HN];
      [apply Rabs_def1; lra | assumption |].
    exists N. intros n Hn. specialize (HN n Hn).
    rewrite Hu. unfold Rdist. rewrite Rminus_0_r, Rabs_mult, (Rabs_pos_eq d0) by lra.
    apply (Rmult_lt_compat_r d0) in HN; [|assumption].
    unfold Rdiv in HN. rewrite Rmult_assoc, Rinv_l, Rmult_1_r in HN by assumption.
    assumption.
Qed.

(** C2.  When the target position is held fixed (the particle is not snow,
    or the mode is FOCUS, and no layout pass intervenes), every [update]
    replaces the position by its exponential smoothing toward the target
    with factor 0.08 in FOCUS and 0.05 otherwise; the distance to the
    target is multiplied by [1 - factor] at each tick, so it never
    increases and it tends to zero. *)
Theorem smoothing_converges : forall mode clock isMobile p,
  type p <> DUST \/ mode = FOCUS ->
  let f := match mode with FOCUS => 0.08 | _ => 0.05 end in
  let run n := ticks slerp mode clock isMobile n p in
  let d n := Vector3.distanceTo (position (mesh (run n))) (targetPos p) in
  lerpFactor mode = f
  /\ (forall n, targetPos (run n) = targetPos p)
  /\ (forall n, position (mesh (run (S n)))
                = Vector3.lerp (position (mesh (run n))) (targetPos p) f)
  /\ (forall n, d (S n) = (1 - f) * d n)
  /\ (forall n, d n = (1 - f) ^ n * d 0%nat)
  /\ (forall n, d (S n) <= d n)
  /\ Un_cv d 0.
Proof.
  intros mode clock isMobile p Hheld f run d.
  assert (Hdr : drifts mode p = false).
  { unfold drifts. destruct Hheld as [Hty | ->].
    - apply ParticleType_eqb_neq in Hty. now rewrite Hty.
    - apply andb_false_r. }
  assert (Hf : lerpFactor mode = f) by (destruct mode; reflexivity).
  assert (Hr : 0 < f < 1) by (rewrite <- Hf; apply lerpFactor_range).
  assert (Htgt : forall n, targetPos (run n) = targetPos p)
    by (apply ticks_target_held; assumption).
  assert (Hpos : forall n, position (mesh (run (S n)))
                           = Vector3.lerp (position (mesh (run n))) (targetPos p) f).
  { intros n. unfold run.
    change (ticks slerp mode clock isMobile (S n) p)
      with (update slerp mode (clock n) isMobile (ticks slerp mode clock isMobile n p)).
    rewrite update_position, Hf.
    fold (run n). now rewrite Htgt. }
  assert (Hstep : forall n, d (S n) = (1 - f) * d n).
  { intros n. unfold d. rewrite Hpos. apply lerp_distance. lra. }
  assert (Hgeo : forall n, d n = (1 - f) ^ n * d 0%nat).
  { induction n as [|n IH]; [simpl; ring|]. rewrite Hstep, IH. simpl. ring. }
  repeat split; try assumption.
  - intros n. rewrite Hstep. pose proof (distanceTo_nonneg
      (position (mesh (run n))) (targetPos p)) as Hn. fold (d n) in Hn. nra.
  - apply (geometric_to_zero (1 - f) (d 0%nat)); [lra | apply distanceTo_nonneg | assumption].
Qed.

(** ** The integrator: falling snow *)

Lemma update_dust_target : forall mode time m p,
  drifts mode p = true ->
  targetPos (update slerp mode time m p)
  = (let moved := Vector3.add (targetPos p) (velocity p) in
     if Rlt_dec (Vector3.y moved) (-20) then Vector3.setY moved 30 else moved).
Proof.
  intros mode time m p H. unfold update, drifts in *. simpl. now rewrite H.
Qed.

(** C6.  For a DUST particle, an [update] with a mode other than FOCUS
    adds the drift velocity to the target position and, when the height so
    obtained is below -20, sets it to 30 in the same call.  Hence the target
    height is at least -20 after every such update, and after any positive
    number of ticks. *)
Theorem dust_recycled : forall mode time isMobile p,
  type p = DUST -> mode <> FOCUS ->
  let moved := Vector3.add (targetPos p) (velocity p) in
  let p' := update slerp mode time isMobile p in
  targetPos p'
  = (if Rlt_dec (Vector3.y moved) (-20) then Vector3.setY moved 30 else moved)
  /\ Vector3.x (targetPos p') = Vector3.x (targetPos p) + Vector3.x (velocity p)
  /\ Vector3.z (targetPos p') = Vector3.z (targetPos p) + Vector3.z (velocity p)
  /\ (Vector3.y (targetPos p) + Vector3.y (velocity p) < -20 ->
      Vector3.y (targetPos p') = 30)
  /\ (-20 <= Vector3.y (targetPos p) + Vector3.y (velocity p) ->
      Vector3.y (targetPos p') = Vector3.y (targetPos p) + Vector3.y (velocity p))
  /\ -20 <= Vector3.y (targetPos p')
  /\ (forall clock n, (0 < n)%nat ->
        -20 <= Vector3.y (targetPos (ticks slerp mode clock isMobile n p))).
Proof.
  intros mode time isMobile p Hty Hmode moved p'.
  assert (Hdr : forall q, type q = DUST -> drifts mode q = true).
  { intros q Hq. unfold drifts. rewrite Hq. simpl.
    destruct mode; try reflexivity. contradiction. }
  assert (Hone : forall t q, type q = DUST ->
            -20 <= Vector3.y (targetPos (update slerp mode t isMobile q))).
  { intros t q Hq. rewrite (update_dust_target _ _ _ _ (Hdr q Hq)). cbv zeta.
    destruct (Rlt_dec _ _) as [Hlt | Hge]; simpl in *; lra. }
  assert (E : targetPos p'
              = (if Rlt_dec (Vector3.y moved) (-20)
                 then Vector3.setY moved 30 else moved))
    by (apply update_dust_target; auto).
  split; [assumption|]. rewrite E. unfold moved.
  repeat split.
  - destruct (Rlt_dec _ _); reflexivity.
  - destruct (Rlt_dec _ _); reflexivity.
  - intros H. destruct (Rlt_dec _ _) as [Hlt | Hge]; simpl in *; [reflexivity | lra].
  - intros H. destruct (Rlt_dec _ _) as [Hlt | Hge]; simpl in *; [lra | reflexivity].
  - destruct (Rlt_dec _ _) as [Hlt | Hge]; simpl in *; lra.
  - intros clock [|n] Hn; [lia|].
    change (ticks slerp mode clock isMobile (S n) p)
      with (update slerp mode (clock n) isMobile (ticks slerp mode clock isMobile n p)).
    apply Hone. now rewrite ticks_type.
Qed.

(** ** The constructor *)

Lemma Vector3_copy_id : forall v, Vector3.copy v = v.
Proof. intros []; reflexivity. Qed.

Lemma Euler_copy_id : forall e, Euler.copy e = e.
Proof. intros []; reflexivity. Qed.

Lemma Particle_new_fields : forall m ty g,
  let p := fst (Particle_new m ty g) in
  mesh p = m /\ type p = ty
  /\ targetPos p = position m /\ targetRot p = rotation m
  /\ targetScale p = scale m /\ baseScale p = Vector3.x (scale m).
Proof.
  intros m ty g. unfold Particle_new, bind, Math_random, ret. simpl.
  rewrite !Vector3_copy_id, Euler_copy_id. repeat split; reflexivity.
Qed.

(** At rest on the target the position does not move while the target is
    not moved. *)
Lemma ticks_at_rest : forall mode clock m p,
  drifts mode p = false -> position (mesh p) = targetPos p ->
  forall n, position (mesh (ticks slerp mode clock m n p)) = position (mesh p).
Proof.
  intros mode clock m p Hdr Hrest n; induction n as [|n IH]; [reflexivity|].
  change (ticks slerp mode clock m (S n) p)
    with (update slerp mode (clock n) m (ticks slerp mode clock m n p)).
  rewrite update_position, IH, ticks_target_held by assumption.
  rewrite Hrest. apply lerp_self.
Qed.

(** C10 (amended).  A particle returned by the constructor has its target
    position, orientation and scale equal to the position, rotation and
    scale of its mesh, and [baseScale] equal to the x scale of the mesh; it
    is at distance zero from its target.  The first [update] does not move
    it, whatever its type and the mode; later updates do not move it either
    as long as the target position is held, that is for every type but DUST
    and for every type in FOCUS mode. *)
Theorem fresh_particle_at_rest : forall m ty g,
  let p := fst (Particle_new m ty g) in
  mesh p = m /\ type p = ty
  /\ targetPos p = position m
  /\ targetRot p = rotation m
  /\ targetScale p = scale m
  /\ baseScale p = Vector3.x (scale m)
  /\ Vector3.distanceTo (position (mesh p)) (targetPos p) = 0
  /\ (forall mode time isMobile,
        position (mesh (update slerp mode time isMobile p)) = position m)
  /\ (forall mode clock isMobile n,
        ty <> DUST \/ mode = FOCUS ->
        position (mesh (ticks slerp mode clock isMobile n p)) = position m).
Proof.
  intros m ty g p.
  destruct (Particle_new_fields m ty g) as [Hm [Hty [Hp [Hr [Hs Hb]]]]].
  fold p in Hm, Hty, Hp, Hr, Hs, Hb.
  repeat split; try assumption.
  - rewrite Hp, Hm. apply distanceTo_self.
  - intros mode time isMobile. rewrite update_position, Hp, Hm. apply lerp_self.
  - intros mode clock isMobile n Hheld.
    replace (position m) with (position (mesh p)) by (now rewrite Hm).
    apply ticks_at_rest; [|now rewrite Hp, Hm].
    unfold drifts. rewrite Hty. destruct Hheld as [Hne | ->].
    + apply ParticleType_eqb_neq in Hne. now rewrite Hne.
    + apply andb_false_r.
Qed.

End IntegratorFacts.

(** ** SCATTER layout *)

Lemma spherical_length : forall r phi theta, 0 <= r ->
  Vector3.length
    (Vector3.new (r * sin phi * cos theta) (r * sin phi * sin theta) (r * cos phi))
  = r.
Proof.
  intros r phi theta Hr. unfold Vector3.length. simpl.
  replace (r * sin phi * cos theta * (r * sin phi * cos theta)
           + r * sin phi * sin theta * (r * sin phi * sin theta)
           + r * cos phi * (r * cos phi))
    with ((Rsqr (sin phi) * (Rsqr (sin theta) + Rsqr (cos theta)) + Rsqr (cos phi))
          * (r * r)) by (unfold Rsqr; ring).
  rewrite sin2_cos2, Rmult_1_r, sin2_cos2, Rmult_1_l. now apply sqrt_square.
Qed.

(** The [k]-th iteration of a [forEach] whose body takes [c] draws starts
    at the cursor moved by [c * k]. *)
Lemma forEach_nth_at : forall body c, body_advances body ->
  (forall p i g, cursor (snd (body p i g)) = (cursor g + c)%nat) ->
  forall arr i g k p,
    nth_error arr k = Some p ->
    exists g', draws g' = draws g
      /\ cursor g' = (cursor g + c * k)%nat
      /\ nth_error (fst (forEach body i arr g)) k = Some (fst (body p (i + k)%nat g')).
Proof.
  intros body c Hb Hc arr; induction arr as [|q rest IH]; intros i g k p Hk.
  - destruct k; discriminate.
  - simpl. rewrite !bind_fst. simpl. destruct k as [|k]; simpl in Hk.
    + injection Hk as ->. exists g. rewrite Nat.add_0_r.
      split; [reflexivity|]. split; [lia | reflexivity].
    + destruct (IH (S i) (snd (body q i g)) k p Hk) as [g' [E1 [E2 E3]]].
      exists g'. split; [rewrite E1; apply Hb|]. split.
      * rewrite E2, Hc. lia.
      * simpl. rewrite E3. replace (i + S k)%nat with (S i + k)%nat by lia.
        reflexivity.
Qed.

Lemma scatterOne_cost : forall p i g,
  cursor (snd (scatterOne p i g)) = (cursor g + 3)%nat.
Proof. intros p i g. run_body. lia. Qed.

(** C3.  In SCATTER mode the layout pass gives every particle of the pool,
    whatever its type, a target position on a spherical shell.  The
    particle at pool index [i] takes the three successive draws [u], [v],
    [w] that follow the [3 i] draws of the particles before it; they give
    the radius [10 + 25u], the azimuth [2 PI v] in [[0, 2 PI)] and the polar
    angle [acos (2w - 1)] in [[0, PI]], and the target is the point with
    these spherical coordinates, the rest of the particle being kept; its
    distance from the origin is that radius, within [[10, 35]]. *)
Theorem scatter_shell : forall isMobile pool g i p,
  unit_draws g ->
  nth_error pool i = Some p ->
  exists p' u v w,
    nth_error (fst (layoutPass SCATTER isMobile pool g)) i = Some p'
    /\ type p' = type p
    /\ 0 <= u < 1 /\ 0 <= v < 1 /\ 0 <= w < 1
    /\ (let r := 10 + u * 25 in
        let theta := v * PI * 2 in
        let phi := acos (2 * w - 1) in
        targetPos p'
        = Vector3.new (r * sin phi * cos theta) (r * sin phi * sin theta)
                      (r * cos phi)
        /\ 0 <= theta < 2 * PI
        /\ 0 <= phi <= PI
        /\ Vector3.length (targetPos p') = r)
    /\ 10 <= Vector3.length (targetPos p') <= 35
    /\ u = draws g (cursor g + 3 * i)
    /\ v = draws g (cursor g + 3 * i + 1)
    /\ w = draws g (cursor g + 3 * i + 2)
    /\ p' = set_targetPos p (targetPos p').
Proof.
  intros isMobile pool g i p Hg Hi.
  rewrite (layoutPass_layout _ _ _ _ _ Hi). unfold layout.
  destruct (forEach_nth_at scatterOne 3 scatterOne_advances scatterOne_cost
              pool 0%nat g i p Hi) as [g' [Hd [Hc Hn]]].
  pose proof (unit_draws_same g g' Hd Hg) as Hg'.
  exists (fst (scatterOne p (0 + i) g')),
         (draws g' (cursor g')), (draws g' (S (cursor g'))),
         (draws g' (S (S (cursor g')))).
  pose proof (Hg' (cursor g')) as Hu.
  pose proof (Hg' (S (cursor g'))) as Hv.
  pose proof (Hg' (S (S (cursor g')))) as Hw.
  assert (Hlen : Vector3.length (targetPos (fst (scatterOne p (0 + i) g')))
                 = 10 + draws g' (cursor g') * 25).
  { run_body. apply spherical_length. lra. }
  split; [assumption|]. split; [reflexivity|].
  split; [assumption|]. split; [assumption|]. split; [assumption|].
  split.
  - cbv zeta. split; [run_body; reflexivity|]. split.
    + pose proof PI_RGT_0. nra.
    + split; [apply acos_bound | assumption].
  - split; [rewrite Hlen; lra|].
    rewrite Hd, Hc.
    split; [reflexivity|].
    split; [f_equal; lia|].
    split; [f_equal; lia|].
    reflexivity.
Qed.

(** ** FOCUS layout *)

Lemma focus_photos : forall m pool g,
  partition PHOTO (fst (layout FOCUS m pool g))
  = fst (forEach
           (focusPhoto m (Math_floor (fst (Math_random g)
                                      * INR (length (partition PHOTO pool)))))
           0 (partition PHOTO pool) (snd (Math_random g))).
Proof.
  intros m pool g. unfold layout. rewrite !bind_fst. unfold ret at 1. simpl fst at 1.
  rewrite withFound_other_partition by (auto with rand; discriminate).
  apply forEachOf_partition. auto with rand.
Qed.

Lemma focus_index_range : forall u count,
  0 <= u < 1 -> (0 < count)%nat ->
  (0 <= Math_floor (u * INR count) < Z.of_nat count)%Z.
Proof.
  intros u count Hu Hc. unfold Math_floor.
  assert (Hpos : 0 < INR count) by (now apply lt_0_INR).
  destruct (Zfloor_bound (u * INR count)) as [Hlo Hhi].
  split.
  - apply Zfloor_lub. simpl. nra.
  - apply lt_IZR. rewrite <- INR_IZR_INZ. nra.
Qed.

(** C4.  In FOCUS mode, with a non-empty photo partition whose members have
    the base scale 1 that [addPhotoToScene] gives them, the layout pass
    picks the index [floor (u * count)]; the photo at that index gets the
    target position (0, 3, 30) on a constrained display and (0, 3, 35)
    otherwise, the neutral target orientation and a target scale whose
    components are at least 3.5 times the base scale; every other photo
    gets a target position with z = -40.  So exactly one photo has a target
    of positive depth. *)
Theorem focus_one_photo : forall isMobile pool g,
  unit_draws g ->
  partition PHOTO pool <> [] ->
  (forall q, In q (partition PHOTO pool) -> baseScale q = 1) ->
  let count := length (partition PHOTO pool) in
  let photos' := partition PHOTO (fst (layoutPass FOCUS isMobile pool g)) in
  length photos' = count
  /\ exists k p',
      (k < count)%nat
      /\ Z.of_nat k = Math_floor (fst (Math_random g) * INR count)
      /\ nth_error photos' k = Some p'
      /\ targetPos p' = Vector3.new 0 3 (if isMobile then 30 else 35)
      /\ 0 < Vector3.z (targetPos p')
      /\ targetRot p' = Euler.new 0 0 0
      /\ targetScale p'
         = Vector3.new (if isMobile then 3.5 else 5.5)
                       (if isMobile then 3.5 else 5.5) 5.5
      /\ 3.5 * baseScale p' <= Vector3.x (targetScale p')
      /\ 3.5 * baseScale p' <= Vector3.y (targetScale p')
      /\ 3.5 * baseScale p' <= Vector3.z (targetScale p')
      /\ (forall j q', nth_error photos' j = Some q' -> j <> k ->
            Vector3.z (targetPos q') = -40)
      /\ (forall j q', nth_error photos' j = Some q' ->
            (0 < Vector3.z (targetPos q') <-> j = k)).
Proof.
  intros isMobile pool g Hg Hne Hbase count photos'.
  assert (Hpool : exists q rest, pool = q :: rest).
  { destruct pool as [|q rest]; [contradiction Hne; reflexivity | eauto]. }
  destruct Hpool as [q0 [rest0 Epool]].
  assert (Hc : (0 < count)%nat).
  { unfold count. destruct (partition PHOTO pool); [contradiction|simpl; lia]. }
  set (idx := Math_floor (fst (Math_random g) * INR count)).
  set (g1 := snd (Math_random g)).
  assert (E : photos' = fst (forEach (focusPhoto isMobile idx) 0
                               (partition PHOTO pool) g1)).
  { unfold photos'. rewrite Epool. unfold layoutPass. rewrite <- Epool.
    apply focus_photos. }
  assert (Hidx : (0 <= idx < Z.of_nat count)%Z)
    by (apply focus_index_range; [apply random_unit; assumption | assumption]).
  assert (Hall : forall j q', nth_error photos' j = Some q' ->
            exists q g', nth_error (partition PHOTO pool) j = Some q
                         /\ q' = fst (focusPhoto isMobile idx q (0 + j) g')).
  { intros j q' Hj.
    destruct (nth_error (partition PHOTO pool) j) as [q|] eqn:Eq.
    - destruct (forEach_nth (focusPhoto isMobile idx) (focusPhoto_advances _ _)
                  (partition PHOTO pool) 0%nat g1 j q Eq) as [g' [_ Hn]].
      rewrite <- E in Hn. exists q, g'. split; [reflexivity | congruence].
    - apply nth_error_None in Eq.
      assert (Hl : (j < length photos')%nat) by (apply nth_error_Some; congruence).
      rewrite E, forEach_length in Hl. lia. }
  assert (Hother : forall j q', nth_error photos' j = Some q' ->
            j <> Z.to_nat idx -> Vector3.z (targetPos q') = -40).
  { intros j q' Hj Hjk. destruct (Hall j q' Hj) as [q [g' [_ ->]]].
    unfold focusPhoto. simpl.
    destruct (Z.eqb_spec (Z.of_nat j) idx) as [Heq | Hneq]; [|reflexivity].
    exfalso. apply Hjk. rewrite <- Heq. now rewrite Nat2Z.id. }
  split; [rewrite E; apply forEach_length|].
  assert (Hk : (Z.to_nat idx < count)%nat) by lia.
  destruct (nth_error (partition PHOTO pool) (Z.to_nat idx)) as [q|] eqn:Eq;
    [|apply nth_error_None in Eq; fold count in Eq; lia].
  destruct (forEach_nth (focusPhoto isMobile idx) (focusPhoto_advances _ _)
              (partition PHOTO pool) 0%nat g1 (Z.to_nat idx) q Eq) as [g' [_ Hn]].
  rewrite <- E in Hn.
  set (p' := fst (focusPhoto isMobile idx q (0 + Z.to_nat idx) g')) in *.
  assert (Hfoc : Z.eqb (Z.of_nat (0 + Z.to_nat idx)) idx = true).
  { apply Z.eqb_eq. simpl. apply Z2Nat.id. lia. }
  assert (Hbp : baseScale p' = 1).
  { unfold p', focusPhoto. rewrite Hfoc. simpl. apply Hbase.
    eapply nth_error_In; eassumption. }
  assert (Hpos : targetPos p' = Vector3.new 0 3 (if isMobile then 30 else 35)).
  { unfold p', focusPhoto. now rewrite Hfoc. }
  assert (Hsc : targetScale p'
                = Vector3.new (if isMobile then 3.5 else 5.5)
                              (if isMobile then 3.5 else 5.5) 5.5).
  { unfold p', focusPhoto. now rewrite Hfoc. }
  assert (Hdepth : 0 < Vector3.z (targetPos p')).
  { rewrite Hpos. simpl. destruct isMobile; lra. }
  exists (Z.to_nat idx), p'.
  split; [assumption|]. split; [apply Z2Nat.id; lia|]. split; [assumption|].
  split; [assumption|]. split; [assumption|].
  split; [unfold p', focusPhoto; now rewrite Hfoc|].
  split; [assumption|].
  rewrite Hsc, Hbp. simpl.
  split; [destruct isMobile; lra|]. split; [destruct isMobile; lra|].
  split; [lra|]. split; [assumption|].
  intros j q' Hj. split.
  - intros Hz. destruct (Nat.eq_dec j (Z.to_nat idx)) as [|Hjk]; [assumption|].
    rewrite (Hother j q' Hj Hjk) in Hz. lra.
  - intros ->. rewrite Hn in Hj. injection Hj as <-. assumption.
Qed.

Lemma focus_untouched : forall m pool g j p,
  nth_error pool j = Some p -> type p <> PHOTO -> type p <> STAR ->
  nth_error (fst (layoutPass FOCUS m pool g)) j = Some p.
Proof.
  intros m pool g j p Hj Hph Hst.
  rewrite (layoutPass_layout _ _ _ _ _ Hj). unfold layout.
  rewrite !bind_fst. unfold ret at 1. simpl fst at 1.
  apply withFound_other_nth; [|now apply ParticleType_eqb_neq].
  apply forEachOf_other_nth; [assumption | now apply ParticleType_eqb_neq].
Qed.

Lemma layoutPass_length : forall mode m pool g,
  length (fst (layoutPass mode m pool g)) = length pool.
Proof.
  intros mode m [|q rest] g; [reflexivity|].
  unfold layoutPass, layout. destruct mode.
  - rewrite !bind_fst. cbv beta. rewrite !forEachOf_length. apply withFound_length.
  - apply forEach_length.
  - rewrite !bind_fst. cbv beta. unfold ret. cbn [fst].
    now rewrite withFound_length, forEachOf_length.
Qed.

(** C5.  A FOCUS pass keeps the pool size and leaves every NEEDLE and every
    SHAPE particle, at its place in the pool, exactly as it was: target
    position, target orientation and target scale (and every other field)
    are unchanged.  Only PHOTO and STAR particles can differ after the
    pass. *)
Theorem focus_keeps_needles_and_shapes : forall isMobile pool g,
  length (fst (layoutPass FOCUS isMobile pool g)) = length pool
  /\ (forall j p, nth_error pool j = Some p ->
        type p = NEEDLE \/ type p = SHAPE ->
        exists p', nth_error (fst (layoutPass FOCUS isMobile pool g)) j = Some p'
                   /\ targetPos p' = targetPos p
                   /\ targetRot p' = targetRot p
                   /\ targetScale p' = targetScale p
                   /\ p' = p)
  /\ (forall j p p', nth_error pool j = Some p ->
        nth_error (fst (layoutPass FOCUS isMobile pool g)) j = Some p' ->
        p' <> p -> type p = PHOTO \/ type p = STAR).
Proof.
  intros isMobile pool g. split; [apply layoutPass_length|]. split.
  - intros j p Hj Hty. exists p.
    rewrite (focus_untouched isMobile pool g j p Hj);
      [repeat split; reflexivity | |]; destruct Hty as [E | E]; rewrite E; discriminate.
  - intros j p p' Hj Hj' Hne.
    destruct (type p) eqn:Ety; try (now left); try (now right); exfalso; apply Hne;
      rewrite (focus_untouched isMobile pool g j p Hj) in Hj' by (rewrite Ety; discriminate);
      congruence.
Qed.

(** ** Photo intake and the shape of the pool *)

Lemma addPhoto_appends : forall s g,
  sceneRef s = true ->
  exists p g',
    draws g' = draws g
    /\ fst (addPhotoToScene s g) = set_particles s (particles s ++ [p])
    /\ p = fst (Particle_new
                  (mkObject3D
                     (Vector3.new ((draws g (cursor g) - 0.5) * 50)
                                  ((draws g (S (cursor g)) - 0.5) * 50)
                                  ((draws g (S (S (cursor g))) - 0.5) * 50))
                     Euler.zero Vector3.one)
                  PHOTO g').
Proof.
  intros s g Hs. unfold addPhotoToScene. rewrite Hs. simpl.
  eexists. exists (mkRng (draws g) (S (S (S (cursor g))))).
  split; [reflexivity|]. split; [|reflexivity].
  unfold bind, Math_random, ret. simpl. reflexivity.
Qed.

Lemma addPhoto_flags : forall s g,
  sceneRef (fst (addPhotoToScene s g)) = sceneRef s
  /\ photoListener (fst (addPhotoToScene s g)) = photoListener s
  /\ groupRotation (fst (addPhotoToScene s g)) = groupRotation s.
Proof.
  intros s g. unfold addPhotoToScene.
  destruct (sceneRef s) eqn:E; simpl; [|now rewrite E].
  unfold bind, Math_random, ret. simpl. now rewrite E.
Qed.

Lemma Particle_new_type : forall m ty g, type (fst (Particle_new m ty g)) = ty.
Proof. reflexivity. Qed.

Lemma spawn_types : forall n mk ty pool g,
  map type (fst (spawn n mk ty pool g)) = map type pool ++ repeat ty n.
Proof.
  intros n mk ty; induction n as [|n IH]; intros pool g; simpl.
  - now rewrite app_nil_r.
  - rewrite !bind_fst. rewrite IH, map_app. simpl.
    rewrite <- app_assoc. reflexivity.
Qed.

Lemma spawn_In : forall n mk ty pool g q,
  In q (fst (spawn n mk ty pool g)) ->
  In q pool \/ (type q = ty /\ exists m g', q = fst (Particle_new m ty g')).
Proof.
  intros n mk ty; induction n as [|n IH]; intros pool g q Hq; simpl in Hq.
  - now left.
  - rewrite !bind_fst in Hq. apply IH in Hq. destruct Hq as [Hq | Hq]; [|now right].
    apply in_app_or in Hq. destruct Hq as [Hq | [<- | []]]; [now left|].
    right. split; [reflexivity | eauto].
Qed.

Lemma mountPool_scene : forall m s g, sceneRef (fst (mountPool m s g)) = true.
Proof. intros m s g. unfold mountPool. rewrite !bind_fst. reflexivity. Qed.

Lemma mountPool_listener : forall m s g,
  photoListener (fst (mountPool m s g)) = photoListener s.
Proof. intros m s g. unfold mountPool. rewrite !bind_fst. reflexivity. Qed.

Lemma mountPool_types : forall m s g,
  map type (particles (fst (mountPool m s g)))
  = map type (particles s)
    ++ STAR :: repeat NEEDLE (needleCount m) ++ repeat SHAPE (ornamentCount m)
    ++ repeat DUST (snowCount m).
Proof.
  intros m s g. unfold mountPool. rewrite !bind_fst. cbv beta. unfold ret at 1.
  cbn [fst particles]. rewrite !spawn_types, map_app. simpl.
  rewrite <- !app_assoc. reflexivity.
Qed.

Lemma mountPool_no_photo : forall m g q,
  In q (particles (fst (mountPool m initialScene g))) -> type q <> PHOTO.
Proof.
  intros m g q Hq.
  assert (Hin : In (type q) (map type (particles (fst (mountPool m initialScene g)))))
    by (now apply in_map).
  rewrite mountPool_types in Hin. simpl in Hin.
  destruct Hin as [<- | Hin]; [discriminate|].
  repeat (apply in_app_or in Hin; destruct Hin as [Hin | Hin];
          [apply repeat_spec in Hin; rewrite Hin; discriminate|]).
  apply repeat_spec in Hin. rewrite Hin. discriminate.
Qed.

Lemma forEach_Forall : forall (P : Particle -> Prop) body,
  (forall p i g, P p -> P (fst (body p i g))) ->
  forall arr i g, Forall P arr -> Forall P (fst (forEach body i arr g)).
Proof.
  intros P body Hb arr; induction arr as [|p rest IH]; intros i g H; simpl.
  - constructor.
  - inversion H; subst. rewrite !bind_fst. simpl. constructor; auto.
Qed.

Lemma forEachOf_Forall : forall (P : Particle -> Prop) ty body,
  (forall p i g, P p -> P (fst (body p i g))) ->
  forall pool i g, Forall P pool -> Forall P (fst (forEachOf ty body i pool g)).
Proof.
  intros P ty body Hb pool; induction pool as [|p rest IH]; intros i g H; simpl.
  - constructor.
  - inversion H; subst.
    destruct (isType ty p); rewrite !bind_fst; simpl; constructor; auto.
Qed.

Lemma withFound_Forall : forall (P : Particle -> Prop) ty change,
  (forall p, P p -> P (change p)) ->
  forall pool, Forall P pool -> Forall P (withFound ty change pool).
Proof.
  intros P ty change Hc pool; induction pool as [|p rest IH]; intros H; simpl.
  - constructor.
  - inversion H; subst. destruct (isType ty p); constructor; auto.
Qed.

(** A property of a particle that only looks at its type and base scale
    survives a layout pass. *)
Lemma layoutPass_Forall : forall (P : Particle -> Prop),
  (forall p q, type q = type p -> baseScale q = baseScale p -> P p -> P q) ->
  forall mode m pool g, Forall P pool -> Forall P (fst (layoutPass mode m pool g)).
Proof.
  intros P HP mode m [|q rest] g H; [constructor|].
  unfold layoutPass, layout. destruct mode.
  - rewrite !bind_fst. cbv beta.
    repeat (apply forEachOf_Forall;
            [intros p i g0 Hp; refine (HP p _ _ _ Hp); reflexivity|]).
    apply withFound_Forall; [|assumption].
    intros p Hp; refine (HP p _ _ _ Hp); reflexivity.
  - apply forEach_Forall; [|assumption].
    intros p i g0 Hp; refine (HP p _ _ _ Hp); reflexivity.
  - rewrite !bind_fst. cbv beta. unfold ret. cbn [fst].
    apply withFound_Forall; [intros p Hp; refine (HP p _ _ _ Hp); reflexivity|].
    apply forEachOf_Forall; [|assumption].
    intros p i g0 Hp. refine (HP p _ _ _ Hp); unfold focusPhoto;
      destruct (Z.eqb _ _); reflexivity.
Qed.

Lemma forEach_types : forall body, keeps_type body ->
  forall arr i g, map type (fst (forEach body i arr g)) = map type arr.
Proof.
  intros body Hk arr; induction arr as [|p rest IH]; intros i g; simpl; [reflexivity|].
  rewrite !bind_fst. simpl. now rewrite Hk, IH.
Qed.

Lemma forEachOf_types : forall ty body, keeps_type body ->
  forall pool i g, map type (fst (forEachOf ty body i pool g)) = map type pool.
Proof.
  intros ty body Hk pool; induction pool as [|p rest IH]; intros i g; simpl; [reflexivity|].
  destruct (isType ty p); rewrite !bind_fst; simpl; now rewrite ?Hk, IH.
Qed.

Lemma withFound_types : forall ty change, (forall p, type (change p) = type p) ->
  forall pool, map type (withFound ty change pool) = map type pool.
Proof.
  intros ty change Hc pool; induction pool as [|p rest IH]; simpl; [reflexivity|].
  destruct (isType ty p); simpl; now rewrite ?Hc, ?IH.
Qed.

Lemma layoutPass_types : forall mode m pool g,
  map type (fst (layoutPass mode m pool g)) = map type pool.
Proof.
  intros mode m [|q rest] g; [reflexivity|].
  unfold layoutPass, layout. destruct mode.
  - rewrite !bind_fst. cbv beta.
    rewrite !forEachOf_types by auto with rand.
    apply withFound_types. auto with rand.
  - apply forEach_types. auto with rand.
  - rewrite !bind_fst. cbv beta. unfold ret. cbn [fst].
    rewrite withFound_types, forEachOf_types by auto with rand. reflexivity.
Qed.

Lemma partition_length_types : forall ty pool,
  length (partition ty pool)
  = length (filter (fun t => ParticleType_eqb t ty) (map type pool)).
Proof.
  intros ty pool; unfold partition; induction pool as [|p rest IH]; simpl; [reflexivity|].
  unfold isType at 1. destruct (ParticleType_eqb (type p) ty); simpl; now rewrite IH.
Qed.

Lemma filter_repeat_same : forall ty n,
  filter (fun t => ParticleType_eqb t ty) (repeat ty n) = repeat ty n.
Proof.
  intros ty n; induction n as [|n IH]; simpl; [reflexivity|].
  now rewrite ParticleType_eqb_refl, IH.
Qed.

Lemma filter_repeat_other : forall ty ty' n, ty' <> ty ->
  filter (fun t => ParticleType_eqb t ty) (repeat ty' n) = [].
Proof.
  intros ty ty' n Hne; induction n as [|n IH]; simpl; [reflexivity|].
  apply ParticleType_eqb_neq in Hne. now rewrite Hne.
Qed.

Section SceneFacts.

Variable slerp : Euler.t -> Euler.t -> R -> Euler.t.

Lemma spinStar_types : forall pool, map type (spinStar pool) = map type pool.
Proof. intros [|p rest]; reflexivity. Qed.

Lemma animate_types : forall mode hand time m s,
  map type (particles (animate slerp mode hand time m s)) = map type (particles s).
Proof.
  intros mode hand time m s. unfold animate. cbn [particles].
  rewrite spinStar_types, map_map. apply map_ext. intros p. reflexivity.
Qed.

Lemma animate_flags : forall mode hand time m s,
  sceneRef (animate slerp mode hand time m s) = sceneRef s
  /\ photoListener (animate slerp mode hand time m s) = photoListener s.
Proof. intros; split; reflexivity. Qed.

Lemma animate_Forall : forall (P : Particle -> Prop),
  (forall p q, type q = type p -> baseScale q = baseScale p -> P p -> P q) ->
  forall mode hand time m s,
    Forall P (particles s) ->
    Forall P (particles (animate slerp mode hand time m s)).
Proof.
  intros P HP mode hand time m s H. unfold animate. cbn [particles].
  assert (Hm : Forall P (map (update slerp mode time m) (particles s))).
  { apply Forall_map. eapply Forall_impl; [|exact H].
    intros p Hp. refine (HP p _ _ _ Hp); reflexivity. }
  destruct (map (update slerp mode time m) (particles s)) as [|p rest]; [constructor|].
  inversion Hm; subst. simpl. constructor; [|assumption].
  refine (HP p _ _ _ H2); reflexivity.
Qed.

Lemma photo_unit_stable : forall p q,
  type q = type p -> baseScale q = baseScale p -> photo_unit p -> photo_unit q.
Proof. intros p q Ht Hb Hp Hq. rewrite Hb. apply Hp. congruence. Qed.

Lemma addPhoto_photo_unit : forall s g,
  Forall photo_unit (particles s) ->
  Forall photo_unit (particles (fst (addPhotoToScene s g))).
Proof.
  intros s g H. destruct (sceneRef s) eqn:E.
  - destruct (addPhoto_appends s g E) as [p [g' [_ [-> ->]]]]. cbn [particles set_particles].
    apply Forall_app. split; [assumption|]. constructor; [|constructor].
    intros _. reflexivity.
  - unfold addPhotoToScene. rewrite E. assumption.
Qed.

Lemma addPhoto_types : forall s g,
  sceneRef s = true ->
  map type (particles (fst (addPhotoToScene s g))) = map type (particles s) ++ [PHOTO].
Proof.
  intros s g E. destruct (addPhoto_appends s g E) as [p [g' [_ [-> ->]]]].
  cbn [particles set_particles]. now rewrite map_app.
Qed.

Lemma mountEffect_inv : forall container m mode hand time g,
  scene_inv (fst (mountEffect slerp container m mode hand time initialScene g)).
Proof.
  intros container m mode hand time g. unfold mountEffect.
  destruct container; cbn [negb].
  2: { repeat split. constructor. }
  rewrite !bind_fst. cbv beta. unfold ret. cbn [fst].
  set (r0 := mountPool m initialScene g).
  set (s1 := fst (addPhotoToScene (fst r0) (snd r0))).
  assert (E0 : sceneRef (fst r0) = true) by apply mountPool_scene.
  assert (E1 : sceneRef s1 = true).
  { unfold s1. destruct (addPhoto_flags (fst r0) (snd r0)) as [-> _]. assumption. }
  unfold scene_inv. cbn [sceneRef photoListener particles].
  destruct (animate_flags mode hand time m s1) as [-> _]. rewrite E1.
  split; [reflexivity|]. split.
  - rewrite animate_types. unfold s1. rewrite addPhoto_types by assumption.
    unfold r0. rewrite mountPool_types. simpl.
    exists m, 0%nat. rewrite <- !app_assoc. reflexivity.
  - apply animate_Forall; [apply photo_unit_stable|].
    unfold s1. apply addPhoto_photo_unit.
    apply Forall_forall. intros q Hq Hty. exfalso.
    now apply (mountPool_no_photo m g q).
Qed.

Lemma reachable_inv : forall s, reachable slerp s -> scene_inv s.
Proof.
  intros s H; induction H as
    [container m mode hand time g
    | s mode m g Hr [IH1 [IH2 IH3]]
    | s mode hand time m Hr [IH1 [IH2 IH3]] Hs
    | s g Hr [IH1 [IH2 IH3]]].
  - apply mountEffect_inv.
  - unfold layoutEffect. rewrite bind_fst. unfold ret. cbn [fst].
    unfold scene_inv. cbn [sceneRef photoListener particles set_particles].
    split; [assumption|]. split.
    + destruct (sceneRef s).
      * now rewrite layoutPass_types.
      * rewrite IH2. reflexivity.
    + apply layoutPass_Forall; [apply photo_unit_stable | assumption].
  - unfold scene_inv. destruct (animate_flags mode hand time m s) as [-> ->].
    split; [assumption|]. rewrite Hs in *. split.
    + now rewrite animate_types.
    + apply animate_Forall; [apply photo_unit_stable | assumption].
  - unfold onAddPhoto. destruct (photoListener s) eqn:El;
      [|unfold ret; cbn [fst]; unfold scene_inv; rewrite El; auto].
    assert (Es : sceneRef s = true) by congruence.
    unfold scene_inv. destruct (addPhoto_flags s g) as [-> [-> _]].
    split; [congruence|]. rewrite Es in *. split.
    + rewrite addPhoto_types by assumption.
      destruct IH2 as [m [k ->]]. exists m, (S k).
      change (STAR :: ?l) with ([STAR] ++ l).
      rewrite <- !app_assoc. do 4 f_equal.
      change [PHOTO] with (repeat PHOTO 1). rewrite <- repeat_app.
      f_equal. lia.
    + now apply addPhoto_photo_unit.
Qed.

(** The guard of [addPhotoToScene] never fires: the listener is installed
    by the mount effect, after the scene is created. *)
Lemma listener_has_scene : forall s,
  reachable slerp s -> photoListener s = true -> sceneRef s = true.
Proof. intros s H Hl. destruct (reachable_inv s H) as [E _]. congruence. Qed.

Lemma calls_addPhoto_scene : forall s, calls_addPhoto slerp s -> sceneRef s = true.
Proof.
  intros s [m g | s' Hr Hl]; [apply mountPool_scene | now apply listener_has_scene].
Qed.

Lemma pool_shape_counts : forall tys, pool_shape tys ->
  length (filter (fun t => ParticleType_eqb t STAR) tys) = 1%nat
  /\ (length (filter (fun t => ParticleType_eqb t NEEDLE) tys) = 600%nat
      \/ length (filter (fun t => ParticleType_eqb t NEEDLE) tys) = 1200%nat)
  /\ (0 < length (filter (fun t => ParticleType_eqb t PHOTO) tys))%nat.
Proof.
  intros tys [m [k ->]]. cbn [filter ParticleType_eqb].
  rewrite !filter_app.
  rewrite !filter_repeat_same.
  rewrite !filter_repeat_other by discriminate.
  simpl. rewrite !app_nil_r, ?repeat_length. simpl.
  split; [reflexivity|]. split; [destruct m; auto | lia].
Qed.

(** In a mounted scene there is one star, 600 or 1200 needles and at least
    one photo, and every photo has base scale 1. *)
Lemma reachable_pool : forall s,
  reachable slerp s -> sceneRef s = true ->
  length (partition STAR (particles s)) = 1%nat
  /\ (length (partition NEEDLE (particles s)) = 600%nat
      \/ length (partition NEEDLE (particles s)) = 1200%nat)
  /\ partition PHOTO (particles s) <> []
  /\ (forall q, In q (partition PHOTO (particles s)) -> baseScale q = 1).
Proof.
  intros s Hr Hs. destruct (reachable_inv s Hr) as [_ [Hshape Hunit]].
  rewrite Hs in Hshape. apply pool_shape_counts in Hshape.
  rewrite <- !partition_length_types in Hshape.
  destruct Hshape as [H1 [H2 H3]].
  split; [assumption|]. split; [assumption|]. split.
  - intros E. rewrite E in H3. simpl in H3. lia.
  - intros q Hq. unfold partition in Hq. apply filter_In in Hq.
    destruct Hq as [Hin Hty]. rewrite Forall_forall in Hunit.
    apply (Hunit q Hin). now apply ParticleType_eqb_eq.
Qed.

(** C7.  Every call of [addPhotoToScene] (the one of the mount effect and
    those of the listener) appends exactly one particle to the pool; it is
    a PHOTO, its spawn position lies in the cube of half-side 25, and the
    particles already in the pool are left as they were, targets
    included. *)
Theorem addPhoto_appends_one : forall s g,
  calls_addPhoto slerp s ->
  unit_draws g ->
  let pool' := particles (fst (addPhotoToScene s g)) in
  exists p,
    pool' = particles s ++ [p]
    /\ type p = PHOTO
    /\ in_spawn_cube (position (mesh p))
    /\ length pool' = S (length (particles s))
    /\ length (partition PHOTO pool') = S (length (partition PHOTO (particles s)))
    /\ (forall j q, nth_error (particles s) j = Some q ->
          nth_error pool' j = Some q
          /\ exists q', nth_error pool' j = Some q'
                        /\ targetPos q' = targetPos q
                        /\ targetRot q' = targetRot q
                        /\ targetScale q' = targetScale q).
Proof.
  intros s g Hcall Hg pool'.
  pose proof (calls_addPhoto_scene s Hcall) as Hs.
  destruct (addPhoto_appends s g Hs) as [p [g' [_ [E Hp]]]].
  assert (Epool : pool' = particles s ++ [p]) by (unfold pool'; now rewrite E).
  exists p. split; [assumption|]. split; [now rewrite Hp|]. split.
  - rewrite Hp. cbn [Particle_new]. unfold Particle_new, bind, Math_random, ret.
    cbn [fst mesh position]. unfold in_spawn_cube. cbn [Vector3.x Vector3.y Vector3.z].
    pose proof (Hg (cursor g)). pose proof (Hg (S (cursor g))).
    pose proof (Hg (S (S (cursor g)))). lra.
  - rewrite Epool. split; [rewrite length_app; simpl; lia|]. split.
    + unfold partition. rewrite filter_app, length_app. simpl.
      unfold isType. rewrite Hp. simpl. lia.
    + intros j q Hj.
      assert (Hq : nth_error (particles s ++ [p]) j = Some q).
      { rewrite nth_error_app1; [assumption|]. apply nth_error_Some. congruence. }
      split; [assumption|]. exists q. repeat split. assumption.
Qed.

End SceneFacts.

(** ** TREE layout: the photo ring *)

Lemma tree_photo_target : forall m pool g i p,
  nth_error (partition PHOTO pool) i = Some p ->
  exists g', draws g' = draws g
    /\ nth_error (partition PHOTO (fst (layoutPass TREE m pool g))) i
       = Some (fst (treePhoto m (length (partition PHOTO pool)) p i g')).
Proof.
  intros m pool g i p Hi.
  destruct (partition_nonempty _ _ _ _ Hi) as [q [j Hq]].
  rewrite (layoutPass_layout _ _ _ _ _ Hq).
  destruct (tree_photos m pool g) as [g1 [Hd ->]].
  destruct (forEach_nth (treePhoto m (length (partition PHOTO pool)))
              (treePhoto_advances _ _) (partition PHOTO pool) 0%nat g1 i p Hi)
    as [g' [Hd' Hn]].
  exists g'. split; [congruence | exact Hn].
Qed.

(** C8 (amended).  In TREE mode the photo at index [i] of a photo partition
    of size [count] gets its target on the ring of radius 12 (constrained
    display) or 16 around the vertical axis, at the angle
    [a = (i/count) * 2 PI], the angles being evenly spaced by [2 PI / count];
    its target yaw is [PI - a] (the source writes [-a + PI]), pitch and roll
    are 0, and its target scale is 0.6. *)
Theorem tree_photo_ring : forall (isMobile : bool) pool g i p,
  nth_error (partition PHOTO pool) i = Some p ->
  let count := length (partition PHOTO pool) in
  let a := INR i / INR count * PI * 2 in
  let r : R := if isMobile then 12 else 16 in
  exists p' u,
    nth_error (partition PHOTO (fst (layoutPass TREE isMobile pool g))) i = Some p'
    /\ targetPos p' = Vector3.new (cos a * r) (2 + u * 5) (sin a * r)
    /\ Vector3.axisDistance (targetPos p') = r
    /\ a = INR i * (2 * PI / INR count)
    /\ 0 <= a < 2 * PI
    /\ targetRot p' = Euler.new 0 (PI - a) 0
    /\ targetScale p' = Vector3.new 0.6 0.6 0.6.
Proof.
  intros isMobile pool g i p Hi count a r.
  destruct (tree_photo_target isMobile pool g i p Hi) as [g' [_ Hn]].
  destruct (INR_pos_of_nth _ _ _ _ Hi) as [Hlt Hpos]. fold count in Hlt, Hpos, Hn.
  exists (fst (treePhoto isMobile count p i g')), (draws g' (cursor g')).
  assert (Hr : 0 <= r) by (unfold r; destruct isMobile; lra).
  split; [assumption|]. split; [reflexivity|]. split.
  - run_body. unfold Vector3.axisDistance. simpl. now apply polar_axis.
  - split; [subst a; field; lra|]. split.
    + pose proof PI_RGT_0 as Hpi.
      assert (Ht : 0 <= INR i / INR count < 1).
      { split.
        - apply Rmult_le_pos; [apply pos_INR | left; now apply Rinv_0_lt_compat].
        - apply (Rmult_lt_reg_r (INR count)); [assumption|].
          unfold Rdiv. rewrite Rmult_assoc, Rinv_l by lra. lra. }
      subst a. nra.
    + split; [|reflexivity]. run_body. f_equal. subst a. ring.
Qed.

(** ** Running the layout twice *)

Lemma forEachOf_state : forall ty body, oblivious body ->
  forall pool1 pool2 i g,
    map type pool1 = map type pool2 ->
    snd (forEachOf ty body i pool1 g) = snd (forEachOf ty body i pool2 g).
Proof.
  intros ty body Ho pool1; induction pool1 as [|p rest IH];
    intros [|q rest'] i g Hm; try discriminate; [reflexivity|].
  simpl in Hm. injection Hm as Hty Hm. simpl.
  unfold isType. rewrite Hty.
  destruct (ParticleType_eqb (type q) ty); rewrite !bind_snd; simpl.
  - rewrite (Ho p q). now apply IH.
  - now apply IH.
Qed.

Lemma forEachOf_hit : forall ty body i p rest g,
  isType ty p = true ->
  fst (forEachOf ty body i (p :: rest) g)
  = fst (body p i g) :: fst (forEachOf ty body (S i) rest (snd (body p i g))).
Proof. intros ty body i p rest g E. simpl. rewrite E, !bind_fst. reflexivity. Qed.

Lemma forEachOf_miss : forall ty body i p rest g,
  isType ty p = false ->
  fst (forEachOf ty body i (p :: rest) g) = p :: fst (forEachOf ty body i rest g).
Proof. intros ty body i p rest g E. simpl. rewrite E, !bind_fst. reflexivity. Qed.

Lemma isType_body : forall ty body, keeps_type body ->
  forall p i g, isType ty (fst (body p i g)) = isType ty p.
Proof. intros ty body Hk p i g. unfold isType. now rewrite Hk. Qed.

Lemma forEachOf_idem : forall ty body,
  oblivious body -> keeps_type body -> overwrites body ->
  forall pool i g,
    fst (forEachOf ty body i (fst (forEachOf ty body i pool g)) g)
    = fst (forEachOf ty body i pool g).
Proof.
  intros ty body Ho Hk Hw pool; induction pool as [|p rest IH]; intros i g;
    [reflexivity|].
  destruct (isType ty p) eqn:E.
  - rewrite (forEachOf_hit _ _ _ _ _ _ E).
    rewrite forEachOf_hit by (now rewrite isType_body).
    rewrite Hw, (Ho (fst (body p i g)) p), IH. reflexivity.
  - rewrite (forEachOf_miss _ _ _ _ _ _ E).
    rewrite (forEachOf_miss _ _ _ _ _ _ E), IH. reflexivity.
Qed.

Lemma forEachOf_comm : forall ty1 ty2 body1 body2,
  ty1 <> ty2 -> keeps_type body1 -> keeps_type body2 ->
  forall pool i1 i2 g1 g2,
    fst (forEachOf ty1 body1 i1 (fst (forEachOf ty2 body2 i2 pool g2)) g1)
    = fst (forEachOf ty2 body2 i2 (fst (forEachOf ty1 body1 i1 pool g1)) g2).
Proof.
  intros ty1 ty2 body1 body2 Hne Hk1 Hk2 pool;
    induction pool as [|p rest IH]; intros i1 i2 g1 g2; [reflexivity|].
  destruct (isType ty1 p) eqn:E1; destruct (isType ty2 p) eqn:E2.
  - apply ParticleType_eqb_eq in E1, E2. congruence.
  - rewrite (forEachOf_miss ty2 _ _ _ _ _ E2), (forEachOf_hit ty1 _ _ _ _ _ E1).
    rewrite (forEachOf_hit ty1 _ _ _ _ _ E1).
    rewrite (forEachOf_miss ty2) by (now rewrite isType_body).
    now rewrite IH.
  - rewrite (forEachOf_hit ty2 _ _ _ _ _ E2), (forEachOf_miss ty1 _ _ _ _ _ E1).
    rewrite (forEachOf_miss ty1) by (now rewrite isType_body).
    rewrite (forEachOf_hit ty2 _ _ _ _ _ E2).
    now rewrite IH.
  - rewrite (forEachOf_miss ty2 _ _ _ _ _ E2), (forEachOf_miss ty1 _ _ _ _ _ E1).
    rewrite (forEachOf_miss ty1 _ _ _ _ _ E1), (forEachOf_miss ty2 _ _ _ _ _ E2).
    now rewrite IH.
Qed.

Lemma withFound_comm : forall ty ty' body change,
  ty <> ty' -> keeps_type body -> (forall p, type (change p) = type p) ->
  forall pool i g,
    withFound ty' change (fst (forEachOf ty body i pool g))
    = fst (forEachOf ty body i (withFound ty' change pool) g).
Proof.
  intros ty ty' body change Hne Hk Hc pool;
    induction pool as [|p rest IH]; intros i g; [reflexivity|].
  destruct (isType ty p) eqn:E1; destruct (isType ty' p) eqn:E2.
  - apply ParticleType_eqb_eq in E1, E2. congruence.
  - rewrite (forEachOf_hit ty _ _ _ _ _ E1). cbn [withFound].
    rewrite isType_body by assumption. rewrite E2.
    rewrite (forEachOf_hit ty _ _ _ _ _ E1). now rewrite IH.
  - rewrite (forEachOf_miss ty _ _ _ _ _ E1). cbn [withFound]. rewrite E2.
    rewrite forEachOf_miss; [reflexivity|].
    unfold isType. rewrite Hc. exact E1.
  - rewrite (forEachOf_miss ty _ _ _ _ _ E1). cbn [withFound]. rewrite E2.
    rewrite (forEachOf_miss ty _ _ _ _ _ E1). now rewrite IH.
Qed.

Lemma withFound_idem : forall ty change,
  (forall p, type (change p) = type p) -> (forall p, change (change p) = change p) ->
  forall pool, withFound ty change (withFound ty change pool) = withFound ty change pool.
Proof.
  intros ty change Hc Hi pool; induction pool as [|p rest IH]; [reflexivity|].
  simpl. destruct (isType ty p) eqn:E; simpl.
  - unfold isType. rewrite Hc. fold (isType ty p). now rewrite E, Hi.
  - now rewrite E, IH.
Qed.

Lemma forEach_idem : forall body, oblivious body -> overwrites body ->
  forall arr i g,
    fst (forEach body i (fst (forEach body i arr g)) g) = fst (forEach body i arr g).
Proof.
  intros body Ho Hw arr; induction arr as [|p rest IH]; intros i g; [reflexivity|].
  simpl. rewrite !bind_fst. simpl. rewrite !bind_fst. simpl.
  rewrite Hw. f_equal. rewrite (Ho (fst (body p i g)) p). apply IH.
Qed.

Lemma settled_after : forall ty body i g pool,
  oblivious body -> keeps_type body -> overwrites body ->
  settled ty body i g (fst (forEachOf ty body i pool g)).
Proof. intros. unfold settled. now apply forEachOf_idem. Qed.

Lemma settled_other : forall ty ty' body body' i i' g g' pool,
  ty <> ty' -> keeps_type body -> keeps_type body' ->
  settled ty body i g pool ->
  settled ty body i g (fst (forEachOf ty' body' i' pool g')).
Proof.
  intros ty ty' body body' i i' g g' pool Hne Hk Hk' Hs. unfold settled in *.
  rewrite forEachOf_comm by assumption. now rewrite Hs.
Qed.

Lemma settled_withFound : forall ty ty' body change i g pool,
  ty <> ty' -> keeps_type body -> (forall p, type (change p) = type p) ->
  settled ty body i g pool ->
  settled ty body i g (withFound ty' change pool).
Proof.
  intros ty ty' body change i g pool Hne Hk Hc Hs. unfold settled in *.
  rewrite <- withFound_comm by assumption. now rewrite Hs.
Qed.

Lemma found_other : forall ty ty' body change i g pool,
  ty <> ty' -> keeps_type body -> (forall p, type (change p) = type p) ->
  withFound ty' change pool = pool ->
  withFound ty' change (fst (forEachOf ty body i pool g))
  = fst (forEachOf ty body i pool g).
Proof.
  intros ty ty' body change i g pool Hne Hk Hc Hs.
  rewrite withFound_comm by assumption. now rewrite Hs.
Qed.

Lemma bodies_oblivious : forall m c idx,
  oblivious (treeNeedle c) /\ oblivious (treeShape c) /\ oblivious (treePhoto m c)
  /\ oblivious scatterOne /\ oblivious (focusPhoto m idx).
Proof.
  intros m c idx. repeat split; intros p q i g; try reflexivity.
  unfold focusPhoto. destruct (Z.eqb _ _); reflexivity.
Qed.

Lemma bodies_overwrite : forall m c idx,
  overwrites (treeNeedle c) /\ overwrites (treeShape c) /\ overwrites (treePhoto m c)
  /\ overwrites scatterOne /\ overwrites (focusPhoto m idx).
Proof.
  intros m c idx. repeat split; intros p i g; try reflexivity.
  unfold focusPhoto. destruct (Z.eqb _ _); reflexivity.
Qed.

Lemma starTo_idem : forall a b c p, starTo a b c (starTo a b c p) = starTo a b c p.
Proof. reflexivity. Qed.

Lemma layout_types : forall mode m pool g,
  map type (fst (layout mode m pool g)) = map type pool.
Proof.
  intros mode m [|q rest] g.
  - destruct mode; reflexivity.
  - apply (layoutPass_types mode m (q :: rest) g).
Qed.

Lemma partition_length_layout : forall ty mode m pool g,
  length (partition ty (fst (layout mode m pool g))) = length (partition ty pool).
Proof.
  intros. now rewrite !partition_length_types, layout_types.
Qed.

(** With the source rewound to the same draws, a second pass in the same
    mode reproduces the pool the first pass left. *)
Lemma layout_rewound : forall mode m pool g,
  fst (layout mode m (fst (layout mode m pool g)) g) = fst (layout mode m pool g).
Proof.
  intros mode m pool g.
  destruct (bodies_oblivious m (length (partition NEEDLE pool)) 0%Z) as [ON _].
  destruct (bodies_oblivious m (length (partition SHAPE pool)) 0%Z) as [_ [OS _]].
  destruct (bodies_oblivious m (length (partition PHOTO pool)) 0%Z)
    as [_ [_ [OP [OSc _]]]].
  destruct (bodies_overwrite m (length (partition NEEDLE pool)) 0%Z) as [WN _].
  destruct (bodies_overwrite m (length (partition SHAPE pool)) 0%Z) as [_ [WS _]].
  destruct (bodies_overwrite m (length (partition PHOTO pool)) 0%Z)
    as [_ [_ [WP [WSc _]]]].
  destruct mode.
  - (* TREE *)
    unfold layout at 1. rewrite !partition_length_layout.
    set (bN := treeNeedle (length (partition NEEDLE pool))) in *.
    set (bS := treeShape (length (partition SHAPE pool))) in *.
    set (bP := treePhoto m (length (partition PHOTO pool))) in *.
    set (W := withFound STAR (starTo 0 16.5 0)).
    assert (E : fst (layout TREE m pool g)
                = fst (forEachOf PHOTO bP 0
                         (fst (forEachOf SHAPE bS 0
                                 (fst (forEachOf NEEDLE bN 0 (W pool) g))
                                 (snd (forEachOf NEEDLE bN 0 (W pool) g))))
                         (snd (forEachOf SHAPE bS 0
                                 (fst (forEachOf NEEDLE bN 0 (W pool) g))
                                 (snd (forEachOf NEEDLE bN 0 (W pool) g)))))).
    { unfold layout. rewrite !bind_fst. reflexivity. }
    set (r1 := forEachOf NEEDLE bN 0 (W pool) g) in *.
    set (r2 := forEachOf SHAPE bS 0 (fst r1) (snd r1)) in *.
    set (P1 := fst (layout TREE m pool g)) in *.
    assert (KN : keeps_type bN) by apply treeNeedle_keeps_type.
    assert (KS : keeps_type bS) by apply treeShape_keeps_type.
    assert (KP : keeps_type bP) by apply treePhoto_keeps_type.
    assert (HW : W P1 = P1).
    { rewrite E. unfold W.
      apply found_other; [discriminate | assumption | reflexivity |].
      apply found_other; [discriminate | assumption | reflexivity |].
      apply found_other; [discriminate | assumption | reflexivity |].
      apply withFound_idem; reflexivity. }
    assert (HN : settled NEEDLE bN 0 g P1).
    { rewrite E.
      apply settled_other; [discriminate | assumption | assumption |].
      apply settled_other; [discriminate | assumption | assumption |].
      now apply settled_after. }
    assert (HS : settled SHAPE bS 0 (snd r1) P1).
    { rewrite E.
      apply settled_other; [discriminate | assumption | assumption |].
      now apply settled_after. }
    assert (HP : settled PHOTO bP 0 (snd r2) P1).
    { rewrite E. now apply settled_after. }
    assert (T1 : map type P1 = map type (W pool)).
    { unfold P1. rewrite layout_types. unfold W. symmetry.
      apply withFound_types. reflexivity. }
    assert (T2 : map type P1 = map type (fst r1)).
    { rewrite T1. unfold r1. symmetry. now apply forEachOf_types. }
    rewrite !bind_fst. cbv beta. fold W. rewrite HW.
    rewrite (forEachOf_state NEEDLE bN ON P1 (W pool) 0%nat g T1). fold r1.
    unfold settled in HN. rewrite HN.
    rewrite (forEachOf_state SHAPE bS OS P1 (fst r1) 0%nat (snd r1) T2). fold r2.
    unfold settled in HS. rewrite HS.
    exact HP.
  - (* SCATTER *)
    unfold layout. now apply forEach_idem.
  - (* FOCUS *)
    unfold layout at 1. rewrite !partition_length_layout.
    set (idx := Math_floor (fst (Math_random g) * INR (length (partition PHOTO pool)))).
    destruct (bodies_oblivious m 0%nat idx) as [_ [_ [_ [_ OF]]]].
    destruct (bodies_overwrite m 0%nat idx) as [_ [_ [_ [_ WF]]]].
    assert (KF : keeps_type (focusPhoto m idx)) by apply focusPhoto_keeps_type.
    set (W := withFound STAR (starTo 0 40 (-50))).
    set (g1 := snd (Math_random g)).
    assert (E : fst (layout FOCUS m pool g)
                = W (fst (forEachOf PHOTO (focusPhoto m idx) 0 pool g1))).
    { unfold layout. rewrite !bind_fst. reflexivity. }
    rewrite !bind_fst. cbv beta. unfold ret. cbn [fst]. fold g1. fold idx. fold W.
    rewrite E.
    assert (HF : settled PHOTO (focusPhoto m idx) 0 g1
                   (W (fst (forEachOf PHOTO (focusPhoto m idx) 0 pool g1)))).
    { apply settled_withFound; [discriminate | assumption | reflexivity |].
      now apply settled_after. }
    unfold settled in HF. rewrite HF.
    apply withFound_idem; reflexivity.
Qed.

Lemma layoutPass_rewound : forall mode m pool g,
  fst (layoutPass mode m (fst (layoutPass mode m pool g)) g)
  = fst (layoutPass mode m pool g).
Proof.
  intros mode m [|q rest] g; [reflexivity|].
  change (layoutPass mode m (q :: rest) g) with (layout mode m (q :: rest) g).
  destruct (fst (layout mode m (q :: rest) g)) as [|q' rest'] eqn:E.
  - pose proof (layout_types mode m (q :: rest) g) as Ht.
    rewrite E in Ht. discriminate.
  - change (layoutPass mode m (q' :: rest') g) with (layout mode m (q' :: rest') g).
    rewrite <- E. apply layout_rewound.
Qed.

Lemma withoutTreeDraws_type : forall p, type (withoutTreeDraws p) = type p.
Proof. intros p. unfold withoutTreeDraws. destruct (type p) eqn:E; simpl; congruence. Qed.

Lemma withoutTreeDraws_isType : forall ty p q,
  withoutTreeDraws p = withoutTreeDraws q -> isType ty p = isType ty q.
Proof.
  intros ty p q H. unfold isType.
  rewrite <- (withoutTreeDraws_type p), <- (withoutTreeDraws_type q). now rewrite H.
Qed.

Lemma withoutTreeDraws_fields : forall p q,
  withoutTreeDraws p = withoutTreeDraws q ->
  type q = type p
  /\ targetScale q = targetScale p
  /\ (type p <> PHOTO -> targetPos q = targetPos p)
  /\ (type p = PHOTO ->
      Vector3.x (targetPos q) = Vector3.x (targetPos p)
      /\ Vector3.z (targetPos q) = Vector3.z (targetPos p))
  /\ (type p <> NEEDLE -> targetRot q = targetRot p)
  /\ Euler.y (targetRot q) = Euler.y (targetRot p).
Proof.
  intros p q H.
  assert (Ht : type q = type p).
  { rewrite <- (withoutTreeDraws_type p), <- (withoutTreeDraws_type q). now rewrite H. }
  unfold withoutTreeDraws in H. rewrite Ht in H.
  destruct p as [pm ptp ptr pts pty pa pb pv pc], q as [qm qtp qtr qts qty qa qb qv qc].
  simpl in *. subst qty.
  destruct pty; simpl in H; unfold set_targetRot, set_targetPos in H; simpl in H;
    injection H; intros; subst;
    repeat split; intros; try congruence; try reflexivity; try assumption.
Qed.

Lemma forEachOf_withoutTreeDraws : forall ty body, keeps_type body ->
  (forall p q i g1 g2, type p = ty ->
     withoutTreeDraws p = withoutTreeDraws q ->
     withoutTreeDraws (fst (body p i g1)) = withoutTreeDraws (fst (body q i g2))) ->
  forall pool1 pool2 i g1 g2,
    map withoutTreeDraws pool1 = map withoutTreeDraws pool2 ->
    map withoutTreeDraws (fst (forEachOf ty body i pool1 g1))
    = map withoutTreeDraws (fst (forEachOf ty body i pool2 g2)).
Proof.
  intros ty body Hk Hb pool1; induction pool1 as [|p rest IH];
    intros [|q rest'] i g1 g2 Hm; try discriminate; [reflexivity|].
  simpl in Hm. injection Hm as Hpq Hm.
  pose proof (withoutTreeDraws_isType ty p q Hpq) as Hty.
  destruct (isType ty p) eqn:E.
  - rewrite (forEachOf_hit ty _ _ _ _ _ E).
    rewrite (forEachOf_hit ty) by congruence.
    simpl. f_equal.
    + apply Hb; [now apply ParticleType_eqb_eq | assumption].
    + now apply IH.
  - rewrite (forEachOf_miss ty _ _ _ _ _ E).
    rewrite (forEachOf_miss ty) by congruence.
    simpl. f_equal; [assumption | now apply IH].
Qed.

Lemma tree_bodies_draw_free : forall m c,
  (forall p q i g1 g2, type p = NEEDLE ->
     withoutTreeDraws p = withoutTreeDraws q ->
     withoutTreeDraws (fst (treeNeedle c p i g1))
     = withoutTreeDraws (fst (treeNeedle c q i g2)))
  /\ (forall p q i g1 g2, type p = SHAPE ->
     withoutTreeDraws p = withoutTreeDraws q ->
     withoutTreeDraws (fst (treeShape c p i g1))
     = withoutTreeDraws (fst (treeShape c q i g2)))
  /\ (forall p q i g1 g2, type p = PHOTO ->
     withoutTreeDraws p = withoutTreeDraws q ->
     withoutTreeDraws (fst (treePhoto m c p i g1))
     = withoutTreeDraws (fst (treePhoto m c q i g2))).
Proof.
  intros m c. repeat split; intros p q i g1 g2 Hty H;
    assert (Hq : type q = type p)
      by (rewrite <- (withoutTreeDraws_type p), <- (withoutTreeDraws_type q);
          now rewrite H);
    unfold withoutTreeDraws in *; run_body; rewrite Hq, Hty in *;
    destruct p as [pm ptp ptr pts pty pa pb pv pc],
             q as [qm qtp qtr qts qty qa qb qv qc];
    simpl in *; unfold set_targetRot, set_targetPos, set_targetScale in *;
    simpl in *; injection H; intros; subst; reflexivity.
Qed.

(** What a TREE pass leaves, draws apart, does not depend on the source. *)
Lemma tree_draws_apart : forall m pool g g',
  map withoutTreeDraws (fst (layout TREE m pool g))
  = map withoutTreeDraws (fst (layout TREE m pool g')).
Proof.
  intros m pool g g'. unfold layout. rewrite !bind_fst. cbv beta.
  destruct (tree_bodies_draw_free m (length (partition NEEDLE pool))) as [BN _].
  destruct (tree_bodies_draw_free m (length (partition SHAPE pool))) as [_ [BS _]].
  destruct (tree_bodies_draw_free m (length (partition PHOTO pool))) as [_ [_ BP]].
  apply forEachOf_withoutTreeDraws; [auto with rand | assumption |].
  apply forEachOf_withoutTreeDraws; [auto with rand | assumption |].
  apply forEachOf_withoutTreeDraws; [auto with rand | assumption |].
  reflexivity.
Qed.

(** C9 (amended).  With the random source rewound to the same draws, a
    second layout pass in the same mode over the pool left by the first
    gives back exactly that pool, in every mode.  Without rewinding, a
    second TREE pass still gives every particle the same target scale, the
    same target position unless it is a photo (whose target keeps its x and
    z and gets a new height), the same target orientation unless it is a
    needle, and the same target yaw. *)
Theorem layout_twice : forall mode isMobile pool g,
  let first := fst (layoutPass mode isMobile pool g) in
  fst (layoutPass mode isMobile first g) = first
  /\ (mode = TREE ->
      forall g' j p1 p2,
        nth_error first j = Some p1 ->
        nth_error (fst (layoutPass TREE isMobile first g')) j = Some p2 ->
        type p2 = type p1
        /\ targetScale p2 = targetScale p1
        /\ (type p1 <> PHOTO -> targetPos p2 = targetPos p1)
        /\ (type p1 = PHOTO ->
            Vector3.x (targetPos p2) = Vector3.x (targetPos p1)
            /\ Vector3.z (targetPos p2) = Vector3.z (targetPos p1))
        /\ (type p1 <> NEEDLE -> targetRot p2 = targetRot p1)
        /\ Euler.y (targetRot p2) = Euler.y (targetRot p1)).
Proof.
  intros mode isMobile pool g first.
  split; [apply layoutPass_rewound|].
  intros -> g' j p1 p2 H1 H2.
  apply withoutTreeDraws_fields.
  assert (E : map withoutTreeDraws (fst (layoutPass TREE isMobile first g'))
              = map withoutTreeDraws first).
  { pose proof (layoutPass_rewound TREE isMobile pool g) as Hr. fold first in Hr.
    transitivity (map withoutTreeDraws (fst (layoutPass TREE isMobile first g)));
      [|now rewrite Hr].
    generalize first. intros [|q rest]; [reflexivity|].
    apply tree_draws_apart. }
  assert (E' : nth_error (map withoutTreeDraws (fst (layoutPass TREE isMobile first g'))) j
               = nth_error (map withoutTreeDraws first) j) by (now rewrite E).
  rewrite !nth_error_map, H1, H2 in E'. simpl in E'. congruence.
Qed.

(** * Concrete runs *)

Lemma zeroDraws_unit : unit_draws zeroDraws.
Proof. intros n. simpl. lra. Qed.

Lemma lateDraws_unit : unit_draws lateDraws.
Proof. intros [|[|n]]; simpl; lra. Qed.

Lemma tree_needle_cone_witness :
  exists p',
    nth_error (partition NEEDLE (fst (layoutPass TREE false smallPool zeroDraws))) 1
    = Some p'
    /\ Vector3.y (targetPos p') = 16 - 28 / INR 2
    /\ 0 < Vector3.axisDistance (targetPos p') <= 9 / INR 2.
Proof.
  pose proof (tree_needle_cone false smallPool zeroDraws 1 (sample NEEDLE) eq_refl) as H.
  cbv zeta in H. destruct H as [p' [H1 [_ [_ [_ [_ [_ Hlast]]]]]]].
  exists p'. split; [exact H1|].
  destruct (Hlast eq_refl) as [Hy [_ [Hr _]]]. split; [exact Hy | exact Hr].
Defined.

Lemma smoothing_converges_witness :
  Un_cv (fun n =>
           Vector3.distanceTo
             (position (mesh (ticks still TREE (fun _ => 0) false n awayNeedle)))
             (targetPos awayNeedle)) 0.
Proof.
  assert (Hty : type awayNeedle <> DUST \/ TREE = FOCUS) by (left; discriminate).
  pose proof (smoothing_converges still TREE (fun _ => 0) false awayNeedle Hty) as H.
  cbv zeta in H. destruct H as [_ [_ [_ [_ [_ [_ Hcv]]]]]]. exact Hcv.
Defined.

Lemma scatter_shell_witness :
  exists p',
    nth_error (fst (layoutPass SCATTER false smallPool lateDraws)) 4 = Some p'
    /\ type p' = DUST
    /\ 10 <= Vector3.length (targetPos p') <= 35
    /\ Vector3.length (targetPos p') = 10 + / 2 * 25
    /\ targetPos p'
       = Vector3.new ((10 + / 2 * 25) * sin (acos (2 * / 2 - 1)) * cos (/ 2 * PI * 2))
                     ((10 + / 2 * 25) * sin (acos (2 * / 2 - 1)) * sin (/ 2 * PI * 2))
                     ((10 + / 2 * 25) * cos (acos (2 * / 2 - 1))).
Proof.
  destruct (scatter_shell false smallPool lateDraws 4 (sample DUST)
              lateDraws_unit eq_refl)
    as (p' & u & v & w & H1 & H2 & _ & _ & _ & HB & H3 & Eu & Ev & Ew & _).
  cbv zeta in HB. destruct HB as (Hpos & _ & _ & Hlen).
  exists p'. split; [exact H1|]. split; [exact H2|]. split; [exact H3|].
  change (draws lateDraws (cursor lateDraws + 3 * 4)) with (/ 2) in Eu.
  change (draws lateDraws (cursor lateDraws + 3 * 4 + 1)) with (/ 2) in Ev.
  change (draws lateDraws (cursor lateDraws + 3 * 4 + 2)) with (/ 2) in Ew.
  subst u v w. split; [exact Hlen | exact Hpos].
Defined.

Lemma focus_one_photo_witness :
  exists k p',
    nth_error (partition PHOTO (fst (layoutPass FOCUS true fourPhotos zeroDraws))) k
    = Some p'
    /\ targetPos p' = Vector3.new 0 3 30
    /\ 3.5 * baseScale p' <= Vector3.x (targetScale p').
Proof.
  assert (Hne : partition PHOTO fourPhotos <> []) by discriminate.
  assert (Hb : forall q, In q (partition PHOTO fourPhotos) -> baseScale q = 1).
  { intros q Hq. simpl in Hq.
    destruct Hq as [<- | [<- | [<- | [<- | []]]]]; reflexivity. }
  pose proof (focus_one_photo true fourPhotos zeroDraws zeroDraws_unit Hne Hb) as H.
  cbv zeta in H.
  destruct H as [_ [k [p' [_ [_ [H1 [H2 [_ [_ [_ [H3 _]]]]]]]]]]].
  exists k, p'. split; [exact H1|]. split; [exact H2 | exact H3].
Defined.

Lemma focus_keeps_needles_and_shapes_witness :
  exists p',
    nth_error (fst (layoutPass FOCUS false smallPool zeroDraws)) 3 = Some p'
    /\ p' = sample SHAPE.
Proof.
  destruct (focus_keeps_needles_and_shapes false smallPool zeroDraws) as [_ [H _]].
  destruct (H 3%nat (sample SHAPE) eq_refl (or_intror eq_refl))
    as [p' [H1 [_ [_ [_ H2]]]]].
  exists p'. split; [exact H1 | exact H2].
Defined.

Lemma dust_recycled_witness :
  Vector3.y (targetPos (update still TREE 0 false lowSnow)) = 30.
Proof.
  assert (Hm : TREE <> FOCUS) by discriminate.
  pose proof (dust_recycled still TREE 0 false lowSnow eq_refl Hm) as H.
  cbv zeta in H. destruct H as [_ [_ [_ [Hlow _]]]].
  apply Hlow. simpl. lra.
Defined.

Lemma addPhoto_appends_one_witness :
  exists p,
    particles (fst (addPhotoToScene (fst (mountPool true initialScene zeroDraws))
                      zeroDraws))
    = particles (fst (mountPool true initialScene zeroDraws)) ++ [p]
    /\ type p = PHOTO
    /\ in_spawn_cube (position (mesh p)).
Proof.
  pose proof (addPhoto_appends_one still
                (fst (mountPool true initialScene zeroDraws)) zeroDraws
                (call_in_mount still true zeroDraws) zeroDraws_unit) as H.
  cbv zeta in H. destruct H as [p [H1 [H2 [H3 _]]]].
  exists p. split; [exact H1|]. split; [exact H2 | exact H3].
Defined.

Lemma tree_photo_ring_witness :
  exists p',
    nth_error (partition PHOTO (fst (layoutPass TREE false fourPhotos zeroDraws))) 1
    = Some p'
    /\ Vector3.axisDistance (targetPos p') = 16
    /\ targetRot p' = Euler.new 0 (PI - INR 1 / INR 4 * PI * 2) 0.
Proof.
  pose proof (tree_photo_ring false fourPhotos zeroDraws 1 (sample PHOTO) eq_refl) as H.
  cbv zeta in H. destruct H as [p' [u [H1 [_ [H2 [_ [_ [H3 _]]]]]]]].
  exists p'. split; [exact H1|]. split; [exact H2 | exact H3].
Defined.

Lemma layout_twice_witness :
  fst (layoutPass SCATTER false
         (fst (layoutPass SCATTER false smallPool lateDraws)) lateDraws)
  = fst (layoutPass SCATTER false smallPool lateDraws).
Proof.
  pose proof (layout_twice SCATTER false smallPool lateDraws) as H.
  cbv zeta in H. destruct H as [H _]. exact H.
Defined.

Lemma fresh_particle_at_rest_witness :
  position (mesh (ticks still SCATTER (fun _ => 0) false 3 (sample PHOTO)))
  = position Mesh_new.
Proof.
  pose proof (fresh_particle_at_rest still Mesh_new PHOTO zeroDraws) as H.
  cbv zeta in H. destruct H as [_ [_ [_ [_ [_ [_ [_ [_ H]]]]]]]].
  apply (H SCATTER (fun _ => 0) false 3%nat). left. discriminate.
Defined.

(** ** Where the code departs from the text *)

(** C8.  With four photos, the second one sits at the ring angle [PI/2];
    its target yaw is [PI/2], not the ring angle plus [PI], and the two
    orientations differ (their sines are 1 and -1). *)
Lemma tree_photo_yaw_is_not_angle_plus_pi :
  exists p',
    nth_error (partition PHOTO (fst (layoutPass TREE false fourPhotos zeroDraws))) 1
    = Some p'
    /\ INR 1 / INR 4 * PI * 2 = PI / 2
    /\ Euler.y (targetRot p') = PI / 2
    /\ Euler.y (targetRot p') <> INR 1 / INR 4 * PI * 2 + PI
    /\ sin (Euler.y (targetRot p')) = 1
    /\ sin (INR 1 / INR 4 * PI * 2 + PI) = -1.
Proof.
  destruct (tree_photo_target false fourPhotos zeroDraws 1 (sample PHOTO) eq_refl)
    as [g' [_ Hn]].
  exists (fst (treePhoto false (length (partition PHOTO fourPhotos)) (sample PHOTO) 1 g')).
  split; [exact Hn|].
  assert (Ea : INR 1 / INR 4 * PI * 2 = PI / 2) by (simpl; field).
  assert (Ey : Euler.y (targetRot (fst (treePhoto false
                  (length (partition PHOTO fourPhotos)) (sample PHOTO) 1 g')))
               = PI / 2).
  { run_body. field. }
  pose proof PI_RGT_0 as Hpi.
  split; [exact Ea|]. split; [exact Ey|]. rewrite Ey, Ea.
  split; [lra|]. split; [apply sin_PI2|].
  replace (PI / 2 + PI) with (3 * (PI / 2)) by field. apply sin_3PI2.
Qed.

(** C9.  Two TREE passes in succession over a pool of one needle, the
    source going on from where the first pass left it: the needle gets the
    target pitch 0 in the first pass and 1/2 in the second. *)
Lemma tree_twice_redraws :
  exists p1 p2,
    nth_error (fst (layoutPass TREE false [sample NEEDLE] lateDraws)) 0 = Some p1
    /\ nth_error
         (fst (layoutPass TREE false
                 (fst (layoutPass TREE false [sample NEEDLE] lateDraws))
                 (snd (layoutPass TREE false [sample NEEDLE] lateDraws)))) 0
       = Some p2
    /\ Euler.x (targetRot p1) = 0
    /\ Euler.x (targetRot p2) = / 2
    /\ targetRot p2 <> targetRot p1.
Proof.
  eexists. eexists. split; [reflexivity|]. split; [reflexivity|].
  split; [reflexivity|]. split; [reflexivity|].
  intros H. apply (f_equal Euler.x) in H. simpl in H. lra.
Qed.

(** C10.  A snow particle fresh from the constructor is on its target, and
    in TREE mode the second tick moves it: the first tick has let the
    target drift. *)
Lemma dust_moves_on_second_tick :
  position (mesh (sample DUST)) = targetPos (sample DUST)
  /\ position (mesh (ticks still TREE (fun _ => 0) false 1 (sample DUST)))
     = position (mesh (sample DUST))
  /\ position (mesh (ticks still TREE (fun _ => 0) false 2 (sample DUST)))
     <> position (mesh (sample DUST)).
Proof.
  split; [reflexivity|]. split.
  - simpl. unfold Vector3.lerp, Vector3.zero. simpl. f_equal; ring.
  - intros H. apply (f_equal Vector3.y) in H. revert H.
    unfold ticks, update, sample, Particle_new, bind, Math_random, ret, lerpFactor.
    simpl. destruct (Rlt_dec _ _) as [Hlt | Hge]; simpl; intros H; lra.
Qed.

(** * Further properties of the layout effect *)

Lemma tree_shapes : forall m pool g,
  exists g', draws g' = draws g
    /\ partition SHAPE (fst (layout TREE m pool g))
       = fst (forEach (treeShape (length (partition SHAPE pool))) 0
                (partition SHAPE pool) g').
Proof.
  intros m pool g. unfold layout. rewrite !bind_fst.
  set (pool0 := withFound STAR (starTo 0 16.5 0) pool).
  set (r1 := forEachOf NEEDLE _ 0%nat pool0 g).
  exists (snd r1). split.
  - unfold r1. rewrite forEachOf_advances by auto with rand. reflexivity.
  - rewrite forEachOf_other_partition by (auto with rand; discriminate).
    destruct (forEachOf_partition SHAPE (treeShape (length (partition SHAPE pool)))
                (treeShape_keeps_type _) (fst r1) 0%nat (snd r1)) as [E _].
    rewrite E. f_equal.
    unfold r1. rewrite forEachOf_other_partition by (auto with rand; discriminate).
    unfold pool0. rewrite withFound_other_partition by (auto with rand; discriminate).
    reflexivity.
Qed.

Lemma unit_fraction : forall i count : nat,
  INR i < INR count -> 0 <= INR i / INR count < 1.
Proof.
  intros i count Hlt.
  assert (Hpos : 0 < INR count) by (pose proof (pos_INR i); lra).
  split.
  - apply Rmult_le_pos; [apply pos_INR | left; now apply Rinv_0_lt_compat].
  - apply (Rmult_lt_reg_r (INR count)); [assumption|].
    unfold Rdiv. rewrite Rmult_assoc, Rinv_l by lra. lra.
Qed.

(** X1.  In TREE mode the ornament at index [i] of a SHAPE partition of
    size [count], with [t = i/count], gets the target at distance
    [9.5 * (1-t)^1.3] from the vertical axis, at angle [t * 35 PI + PI] and
    height [28 t - 12]; its target orientation and scale and its mesh are
    left alone.  The first ornament goes to (-9.5, -12, 0); the last one has
    height [16 - 28/count] and radius at most [9.5/count]. *)
Theorem tree_shape_cone : forall isMobile pool g i p,
  nth_error (partition SHAPE pool) i = Some p ->
  let count := length (partition SHAPE pool) in
  let t := INR i / INR count in
  let radius := 9.5 * Rpower (1 - t) 1.3 in
  let angle := t * 35 * PI + PI in
  exists p',
    nth_error (partition SHAPE (fst (layoutPass TREE isMobile pool g))) i = Some p'
    /\ p' = set_targetPos p
              (Vector3.new (cos angle * radius) (t * 28 - 12) (sin angle * radius))
    /\ Vector3.axisDistance (targetPos p') = radius
    /\ targetRot p' = targetRot p /\ targetScale p' = targetScale p
    /\ mesh p' = mesh p
    /\ (i = 0%nat -> targetPos p' = Vector3.new (-9.5) (-12) 0)
    /\ (S i = count ->
        Vector3.y (targetPos p') = 16 - 28 / INR count
        /\ 0 < Vector3.axisDistance (targetPos p') <= 9.5 / INR count).
Proof.
  intros isMobile pool g i p Hi count t radius angle.
  destruct (partition_nonempty _ _ _ _ Hi) as [q [j Hq]].
  rewrite (layoutPass_layout _ _ _ _ _ Hq).
  destruct (tree_shapes isMobile pool g) as [g1 [_ ->]].
  destruct (forEach_nth (treeShape count) (treeShape_advances count)
              (partition SHAPE pool) 0%nat g1 i p Hi) as [g' [_ Hn]].
  destruct (INR_pos_of_nth _ _ _ _ Hi) as [Hlt Hpos]. fold count in Hlt, Hpos, Hn |- *.
  pose proof (unit_fraction i count Hlt) as Ht. fold t in Ht.
  assert (Hpow : Math_pow (1 - t) 1.3 = Rpower (1 - t) 1.3).
  { unfold Math_pow. destruct (Rlt_dec 0 (1 - t)); [reflexivity | lra]. }
  assert (Hrad : 0 < radius).
  { unfold radius. apply Rmult_lt_0_compat; [lra | apply Rpower_pos]. }
  set (p' := fst (treeShape count p (0 + i) g')) in *.
  assert (Ep : p' = set_targetPos p
                      (Vector3.new (cos angle * radius) (t * 28 - 12)
                                   (sin angle * radius))).
  { unfold p'. run_body. fold t. rewrite Hpow. reflexivity. }
  assert (Haxis : Vector3.axisDistance (targetPos p') = radius).
  { rewrite Ep. unfold Vector3.axisDistance. simpl. apply polar_axis. lra. }
  exists p'. split; [assumption|]. split; [assumption|]. split; [assumption|].
  split; [now rewrite Ep|]. split; [now rewrite Ep|]. split; [now rewrite Ep|].
  split.
  - intros H. rewrite Ep. simpl.
    assert (Et : t = 0) by (unfold t; rewrite H; simpl; unfold Rdiv; ring).
    unfold radius, angle. rewrite Et.
    replace (1 - 0) with 1 by ring. rewrite Rpower_one_base.
    replace (0 * 35 * PI + PI) with PI by ring. rewrite cos_PI, sin_PI.
    f_equal; lra.
  - intros H.
    assert (E : 1 - t = / INR count).
    { unfold t. rewrite <- H, S_INR. field. rewrite <- S_INR, H. lra. }
    assert (Hinv : 0 < / INR count <= 1).
    { split; [now apply Rinv_0_lt_compat|].
      rewrite <- Rinv_1. apply Rinv_le_contravar; [lra|].
      rewrite <- H, S_INR. pose proof (pos_INR i). lra. }
    pose proof (Rpower_le_base (/ INR count) 1.3 Hinv ltac:(lra)) as Hle.
    split.
    + rewrite Ep. simpl. replace t with (1 - (1 - t)) by ring. rewrite E.
      unfold Rdiv. ring.
    + rewrite Haxis. split; [assumption|]. unfold radius. rewrite E.
      unfold Rdiv. lra.
Qed.

Lemma withFound_first : forall ty change pool j p,
  nth_error pool j = Some p -> isType ty p = true -> firstOf ty pool j ->
  nth_error (withFound ty change pool) j = Some (change p).
Proof.
  intros ty change pool; induction pool as [|q rest IH]; intros j p Hj Hp Hfirst.
  - destruct j; discriminate.
  - simpl. destruct j as [|j]; simpl in Hj.
    + injection Hj as ->. now rewrite Hp.
    + rewrite (Hfirst 0%nat q) by (simpl; auto; lia). simpl.
      apply IH; [assumption | assumption |].
      intros k q' Hk Hq'. apply (Hfirst (S k) q'); [lia | assumption].
Qed.

Lemma withFound_later : forall ty change pool j k p q,
  nth_error pool j = Some p -> isType ty p = true -> (j < k)%nat ->
  nth_error pool k = Some q ->
  nth_error (withFound ty change pool) k = Some q.
Proof.
  intros ty change pool; induction pool as [|a rest IH]; intros j k p q Hj Hp Hjk Hk.
  - destruct j; discriminate.
  - simpl. destruct (isType ty a) eqn:E.
    + destruct k as [|k]; [lia | exact Hk].
    + destruct j as [|j]; simpl in Hj; [injection Hj as ->; congruence|].
      destruct k as [|k]; [lia|]. simpl in *.
      apply (IH j k p q); [assumption | assumption | lia | assumption].
Qed.

(** X2.  The star that [find] returns, the first STAR of the pool, gets the
    target position (0, 16.5, 0) in TREE mode and (0, 40, -50) in FOCUS
    mode, nothing else of it being changed; a STAR further down the pool is
    not touched by either pass. *)
Theorem star_targets : forall isMobile pool g j p,
  nth_error pool j = Some p ->
  type p = STAR ->
  firstOf STAR pool j ->
  nth_error (fst (layoutPass TREE isMobile pool g)) j
  = Some (set_targetPos p (Vector3.new 0 16.5 0))
  /\ nth_error (fst (layoutPass FOCUS isMobile pool g)) j
     = Some (set_targetPos p (Vector3.new 0 40 (-50)))
  /\ (forall k q, (j < k)%nat -> nth_error pool k = Some q -> type q = STAR ->
        nth_error (fst (layoutPass TREE isMobile pool g)) k = Some q
        /\ nth_error (fst (layoutPass FOCUS isMobile pool g)) k = Some q).
Proof.
  intros isMobile pool g j p Hj Hty Hfirst.
  assert (Hs : isType STAR p = true) by (now apply ParticleType_eqb_eq).
  rewrite !(layoutPass_layout _ _ _ _ _ Hj). unfold layout.
  rewrite !bind_fst. cbv beta. unfold ret. cbn [fst].
  assert (Hno : forall ty q, type q = STAR -> ty <> STAR -> isType ty q = false).
  { intros ty q Hq Hne. apply ParticleType_eqb_neq. congruence. }
  split; [|split].
  - repeat (apply forEachOf_other_nth; [|apply Hno; [assumption | discriminate]]).
    now apply (withFound_first STAR (starTo 0 16.5 0)).
  - apply (withFound_first STAR (starTo 0 40 (-50))).
    + apply forEachOf_other_nth; [assumption | apply Hno; [assumption | discriminate]].
    + assumption.
    + intros k q Hk Hq.
      destruct (forEachOf_type_nth PHOTO _ (focusPhoto_keeps_type _ _) _ _ _ _ _ Hq)
        as [q0 [Hq0 Et]].
      unfold isType. rewrite Et. apply (Hfirst k q0 Hk Hq0).
  - intros k q Hjk Hk Hq. split.
    + repeat (apply forEachOf_other_nth; [|apply Hno; [assumption | discriminate]]).
      now apply (withFound_later STAR _ pool j k p q).
    + apply (withFound_later STAR _ _ j k p q); try assumption;
        apply forEachOf_other_nth; try assumption;
        apply Hno; try assumption; discriminate.
Qed.

Lemma forEach_nth_inv : forall body, body_advances body ->
  forall arr i g k p',
    nth_error (fst (forEach body i arr g)) k = Some p' ->
    exists p g', draws g' = draws g /\ nth_error arr k = Some p
                 /\ p' = fst (body p (i + k)%nat g').
Proof.
  intros body Hb arr i g k p' Hk.
  destruct (nth_error arr k) as [p|] eqn:E.
  - destruct (forEach_nth body Hb arr i g k p E) as [g' [Hd Hn]].
    exists p, g'. split; [assumption|]. split; [reflexivity | congruence].
  - apply nth_error_None in E.
    assert (Hl : (k < length (fst (forEach body i arr g)))%nat)
      by (apply nth_error_Some; congruence).
    rewrite forEach_length in Hl. lia.
Qed.

(** X3.  With draws in [[0,1)], a TREE pass gives every needle a target
    pitch and roll in [[0,1)] and every photo a target height in [[2,7)]. *)
Theorem tree_draw_ranges : forall isMobile pool g,
  unit_draws g ->
  let pool' := fst (layoutPass TREE isMobile pool g) in
  (forall i p', nth_error (partition NEEDLE pool') i = Some p' ->
     0 <= Euler.x (targetRot p') < 1 /\ 0 <= Euler.z (targetRot p') < 1)
  /\ (forall i p', nth_error (partition PHOTO pool') i = Some p' ->
        2 <= Vector3.y (targetPos p') < 7).
Proof.
  intros isMobile pool g Hg pool'. subst pool'.
  destruct pool as [|q rest].
  - split; intros i p' H; destruct i; discriminate.
  - change (layoutPass TREE isMobile (q :: rest) g)
      with (layout TREE isMobile (q :: rest) g).
    generalize (q :: rest). intros pool. split.
    + intros i p' H. rewrite tree_needles in H.
      destruct (forEach_nth_inv _ (treeNeedle_advances _) _ _ _ _ _ H)
        as [p [g' [Hd [_ ->]]]].
      pose proof (unit_draws_same g g' Hd Hg) as Hg'.
      run_body. split; apply Hg'.
    + intros i p' H. destruct (tree_photos isMobile pool g) as [g1 [Hd1 E1]].
      rewrite E1 in H.
      destruct (forEach_nth_inv _ (treePhoto_advances _ _) _ _ _ _ _ H)
        as [p [g' [Hd [_ ->]]]].
      assert (Hg' : unit_draws g')
        by (apply (unit_draws_same g); [congruence | assumption]).
      run_body. pose proof (Hg' (cursor g')). lra.
Qed.

Lemma sameBody_refl : forall p, sameBody p p.
Proof. intros p. repeat split. Qed.

Lemma sameBody_trans : forall p q r, sameBody p q -> sameBody q r -> sameBody p r.
Proof.
  intros p q r [H1 [H2 [H3 [H4 [H5 H6]]]]] [K1 [K2 [K3 [K4 [K5 K6]]]]].
  repeat split; congruence.
Qed.

Lemma forEachOf_sameBody : forall ty body,
  (forall p i g, sameBody p (fst (body p i g))) ->
  forall pool i g j p',
    nth_error (fst (forEachOf ty body i pool g)) j = Some p' ->
    exists p, nth_error pool j = Some p /\ sameBody p p'.
Proof.
  intros ty body Hb pool; induction pool as [|q rest IH]; intros i g j p' Hj.
  - destruct j; discriminate.
  - simpl in Hj. destruct (isType ty q); rewrite !bind_fst in Hj; simpl in Hj;
      destruct j as [|j]; simpl in *.
    + injection Hj as <-. eexists; split; [reflexivity | apply Hb].
    + eapply IH; eassumption.
    + injection Hj as <-. eexists; split; [reflexivity | apply sameBody_refl].
    + eapply IH; eassumption.
Qed.

Lemma withFound_sameBody : forall ty change,
  (forall p, sameBody p (change p)) ->
  forall pool j p',
    nth_error (withFound ty change pool) j = Some p' ->
    exists p, nth_error pool j = Some p /\ sameBody p p'.
Proof.
  intros ty change Hc pool; induction pool as [|q rest IH]; intros j p' Hj.
  - destruct j; discriminate.
  - simpl in Hj. destruct (isType ty q); destruct j as [|j]; simpl in *.
    + injection Hj as <-. eexists; split; [reflexivity | apply Hc].
    + exists p'. split; [assumption | apply sameBody_refl].
    + injection Hj as <-. eexists; split; [reflexivity | apply sameBody_refl].
    + eapply IH; eassumption.
Qed.

(** X4.  A layout pass, in any mode, keeps the length and the order of the
    pool and writes targets only: at every pool index the particle keeps
    its mesh (so its current position, rotation and scale), its type and
    its twinkle, velocity and base-scale parameters. *)
Theorem layout_writes_targets_only : forall mode isMobile pool g,
  length (fst (layoutPass mode isMobile pool g)) = length pool
  /\ forall j p', nth_error (fst (layoutPass mode isMobile pool g)) j = Some p' ->
       exists p, nth_error pool j = Some p
                 /\ mesh p' = mesh p /\ type p' = type p
                 /\ twinkleOffset p' = twinkleOffset p
                 /\ twinkleSpeed p' = twinkleSpeed p
                 /\ velocity p' = velocity p /\ baseScale p' = baseScale p.
Proof.
  intros mode isMobile pool g. split; [apply layoutPass_length|].
  intros j p' Hj.
  assert (H : exists p, nth_error pool j = Some p /\ sameBody p p');
    [|destruct H as [p [Hp Hs]]; exists p; split; [assumption | exact Hs]].
  destruct pool as [|q0 rest0] eqn:Epool; [destruct j; discriminate|].
  rewrite <- Epool in *.
  assert (E : layoutPass mode isMobile pool g = layout mode isMobile pool g)
    by (rewrite Epool; reflexivity).
  rewrite E in Hj. clear E Epool. unfold layout in Hj. destruct mode.
  - rewrite !bind_fst in Hj. cbv beta in Hj.
    apply forEachOf_sameBody in Hj;
      [|intros p i g0; repeat split].
    destruct Hj as [p3 [Hj H3]].
    apply forEachOf_sameBody in Hj;
      [|intros p i g0; repeat split].
    destruct Hj as [p2 [Hj H2]].
    apply forEachOf_sameBody in Hj;
      [|intros p i g0; repeat split].
    destruct Hj as [p1 [Hj H1]].
    apply withFound_sameBody in Hj; [|intros p; repeat split].
    destruct Hj as [p0 [Hj H0]].
    exists p0. split; [assumption|].
    eauto using sameBody_trans.
  - destruct (forEach_nth_inv _ scatterOne_advances _ _ _ _ _ Hj)
      as [p [g' [_ [Hp ->]]]].
    exists p. split; [assumption | repeat split].
  - rewrite !bind_fst in Hj. cbv beta in Hj. unfold ret in Hj. cbn [fst] in Hj.
    apply withFound_sameBody in Hj; [|intros p; repeat split].
    destruct Hj as [p1 [Hj H1]].
    apply forEachOf_sameBody in Hj;
      [|intros p i g0; unfold focusPhoto; destruct (Z.eqb _ _); repeat split].
    destruct Hj as [p0 [Hj H0]].
    exists p0. split; [assumption|]. eauto using sameBody_trans.
Qed.

(** X5.  A SCATTER pass rewrites target positions and nothing else: at
    every pool index the particle is the old one with a new [targetPos], so
    target orientations and scales set by an earlier TREE or FOCUS pass
    (the 0.6 of the ring, the enlargement of the focused photo) stay. *)
Theorem scatter_rewrites_positions_only : forall isMobile pool g i p,
  nth_error pool i = Some p ->
  exists v,
    nth_error (fst (layoutPass SCATTER isMobile pool g)) i = Some (set_targetPos p v)
    /\ targetRot (set_targetPos p v) = targetRot p
    /\ targetScale (set_targetPos p v) = targetScale p.
Proof.
  intros isMobile pool g i p Hi.
  rewrite (layoutPass_layout _ _ _ _ _ Hi). unfold layout.
  destruct (forEach_nth scatterOne scatterOne_advances pool 0%nat g i p Hi)
    as [g' [_ Hn]].
  rewrite Hn. run_body. eexists. split; [reflexivity|]. split; reflexivity.
Qed.

Lemma forEachOf_none : forall ty body pool i g,
  partition ty pool = [] -> forEachOf ty body i pool g = (pool, g).
Proof.
  intros ty body pool; unfold partition;
    induction pool as [|p rest IH]; intros i g H; [reflexivity|].
  simpl in *. destruct (isType ty p); [discriminate|].
  unfold bind. rewrite IH by assumption. reflexivity.
Qed.

(** X6.  Empty partitions are passed over without any draw and without the
    division [i / 0] ever being formed: on an empty pool a pass does
    nothing; a FOCUS pass over a pool without photos takes its one draw and
    moves only the target of the first star; a TREE pass over a pool without
    needles, ornaments and photos takes no draw and moves only the target
    of the first star. *)
Theorem passes_over_empty_partitions : forall mode isMobile pool g,
  layoutPass mode isMobile [] g = ([], g)
  /\ (partition PHOTO pool = [] -> pool <> [] ->
      layoutPass FOCUS isMobile pool g
      = (withFound STAR (starTo 0 40 (-50)) pool, mkRng (draws g) (S (cursor g))))
  /\ (partition NEEDLE pool = [] -> partition SHAPE pool = [] ->
      partition PHOTO pool = [] ->
      layoutPass TREE isMobile pool g = (withFound STAR (starTo 0 16.5 0) pool, g)).
Proof.
  intros mode isMobile pool g. split; [reflexivity|]. split.
  - intros Hph Hne. destruct pool as [|q rest]; [contradiction|].
    change (layoutPass FOCUS isMobile (q :: rest) g)
      with (layout FOCUS isMobile (q :: rest) g).
    revert Hph. generalize (q :: rest). intros pool Hph.
    rewrite (surjective_pairing (layout FOCUS isMobile pool g)).
    unfold layout. rewrite !bind_fst, !bind_snd. cbv beta.
    rewrite forEachOf_none by assumption. reflexivity.
  - intros HN HS HP. destruct pool as [|q rest]; [reflexivity|].
    change (layoutPass TREE isMobile (q :: rest) g)
      with (layout TREE isMobile (q :: rest) g).
    revert HN HS HP. generalize (q :: rest). intros pool HN HS HP.
    assert (K : forall ty, ty <> STAR -> partition ty pool = [] ->
              partition ty (withFound STAR (starTo 0 16.5 0) pool) = []).
    { intros ty Hty H0. rewrite withFound_other_partition; auto. }
    rewrite (surjective_pairing (layout TREE isMobile pool g)).
    unfold layout. rewrite !bind_fst, !bind_snd. cbv beta.
    rewrite (forEachOf_none NEEDLE) by (apply K; [discriminate | assumption]).
    cbn [fst snd].
    rewrite (forEachOf_none SHAPE) by (apply K; [discriminate | assumption]).
    cbn [fst snd].
    rewrite (forEachOf_none PHOTO) by (apply K; [discriminate | assumption]).
    reflexivity.
Qed.

(** X7.  In FOCUS mode a photo that is not the chosen one is sent to the
    back plane [z = -40] at [x] and [y] in [[-40, 40)], and its target
    orientation and scale are not reset: it keeps the ones it had. *)
Theorem focus_back_plane : forall isMobile pool g j q,
  unit_draws g ->
  nth_error (partition PHOTO pool) j = Some q ->
  Z.of_nat j <> Math_floor (fst (Math_random g)
                            * INR (length (partition PHOTO pool))) ->
  exists p',
    nth_error (partition PHOTO (fst (layoutPass FOCUS isMobile pool g))) j = Some p'
    /\ -40 <= Vector3.x (targetPos p') < 40
    /\ -40 <= Vector3.y (targetPos p') < 40
    /\ Vector3.z (targetPos p') = -40
    /\ targetRot p' = targetRot q
    /\ targetScale p' = targetScale q.
Proof.
  intros isMobile pool g j q Hg Hj Hidx.
  destruct (partition_nonempty _ _ _ _ Hj) as [q0 [j0 Hq0]].
  rewrite (layoutPass_layout _ _ _ _ _ Hq0), focus_photos.
  set (idx := Math_floor _) in *.
  destruct (forEach_nth (focusPhoto isMobile idx) (focusPhoto_advances _ _)
              (partition PHOTO pool) 0%nat (snd (Math_random g)) j q Hj)
    as [g' [Hd Hn]].
  assert (Hg' : unit_draws g') by (apply (unit_draws_same g); assumption).
  exists (fst (focusPhoto isMobile idx q (0 + j) g')). split; [assumption|].
  unfold focusPhoto. simpl.
  destruct (Z.eqb_spec (Z.of_nat j) idx) as [E | _]; [contradiction|].
  run_body.
  pose proof (Hg' (cursor g')). pose proof (Hg' (S (cursor g'))).
  repeat split; try lra.
Qed.

Lemma forEach_cursor : forall body c,
  (forall p i g, cursor (snd (body p i g)) = (cursor g + c)%nat) ->
  forall arr i g,
    cursor (snd (forEach body i arr g)) = (cursor g + c * length arr)%nat.
Proof.
  intros body c Hc arr; induction arr as [|p rest IH]; intros i g; simpl; [lia|].
  rewrite !bind_snd. simpl. rewrite IH, Hc. lia.
Qed.

Lemma forEachOf_cursor : forall ty body c, keeps_type body ->
  (forall p i g, cursor (snd (body p i g)) = (cursor g + c)%nat) ->
  forall pool i g,
    cursor (snd (forEachOf ty body i pool g))
    = (cursor g + c * length (partition ty pool))%nat.
Proof.
  intros ty body c Hk Hc pool i g.
  destruct (forEachOf_partition ty body Hk pool i g) as [_ ->].
  now apply forEach_cursor.
Qed.

Lemma focus_cursor : forall m idx arr i g,
  cursor (snd (forEach (focusPhoto m idx) i arr g))
  = (cursor g
     + 2 * (length arr
            - (if (Z.of_nat i <=? idx)%Z && (idx <? Z.of_nat (i + length arr))%Z
               then 1 else 0)))%nat.
Proof.
  intros m idx arr; induction arr as [|p rest IH]; intros i g.
  - simpl. lia.
  - simpl forEach. rewrite !bind_snd. cbn [snd ret]. rewrite IH.
    unfold focusPhoto at 1. cbn [length].
    destruct (Z.eqb_spec (Z.of_nat i) idx) as [E | E].
    + cbn [snd ret].
      destruct (Z.leb_spec (Z.of_nat (S i)) idx); destruct (Z.leb_spec (Z.of_nat i) idx);
        destruct (Z.ltb_spec idx (Z.of_nat (S i + length rest)));
        destruct (Z.ltb_spec idx (Z.of_nat (i + S (length rest)))); cbn [andb]; lia.
    + unfold bind, Math_random, ret. cbn [snd cursor].
      destruct (Z.leb_spec (Z.of_nat (S i)) idx); destruct (Z.leb_spec (Z.of_nat i) idx);
        destruct (Z.ltb_spec idx (Z.of_nat (S i + length rest)));
        destruct (Z.ltb_spec idx (Z.of_nat (i + S (length rest)))); cbn [andb]; lia.
Qed.

(** X8.  What a layout pass takes from [Math.random()]: on a non-empty pool
    a TREE pass takes two draws per needle and one per photo, a SCATTER
    pass three per particle, and a FOCUS pass one draw for the choice and
    two for every photo but the chosen one (one draw in all when there is
    no photo). *)
Theorem layout_draw_count : forall mode isMobile pool g,
  pool <> [] ->
  unit_draws g ->
  let out := snd (layoutPass mode isMobile pool g) in
  draws out = draws g
  /\ cursor out
     = (cursor g
        + match mode with
          | TREE => 2 * length (partition NEEDLE pool) + length (partition PHOTO pool)
          | SCATTER => 3 * length pool
          | FOCUS => 1 + 2 * (length (partition PHOTO pool) - 1)
          end)%nat.
Proof.
  intros mode isMobile pool g Hne Hg out. subst out.
  destruct pool as [|q rest]; [contradiction|].
  change (layoutPass mode isMobile (q :: rest) g)
    with (layout mode isMobile (q :: rest) g).
  clear Hne. generalize (q :: rest). intros pool.
  unfold layout. destruct mode.
  - rewrite !bind_snd. cbv beta. split.
    + rewrite !forEachOf_advances by auto with rand. reflexivity.
    + rewrite (forEachOf_cursor PHOTO _ 1)
        by (first [solve [auto with rand] | intros; run_body; lia]).
      rewrite (forEachOf_cursor SHAPE _ 0)
        by (first [solve [auto with rand] | intros; run_body; lia]).
      rewrite (forEachOf_cursor NEEDLE _ 2)
        by (first [solve [auto with rand] | intros; run_body; lia]).
      rewrite !forEachOf_other_partition by (auto with rand; discriminate).
      rewrite !withFound_other_partition by (auto with rand; discriminate).
      lia.
  - split.
    + apply forEach_advances. auto with rand.
    + rewrite (forEach_cursor scatterOne 3) by (intros; run_body; lia). lia.
  - rewrite !bind_snd. cbv beta. unfold ret. cbn [snd]. split.
    + rewrite forEachOf_advances by auto with rand. reflexivity.
    + set (idx := Math_floor _).
      destruct (forEachOf_partition PHOTO (focusPhoto isMobile idx)
                  (focusPhoto_keeps_type _ _) pool 0%nat (snd (Math_random g)))
        as [_ ->].
      rewrite focus_cursor. cbn [snd Math_random cursor].
      destruct (partition PHOTO pool) as [|a l] eqn:E.
      * simpl. lia.
      * assert (Hr : (0 <= idx < Z.of_nat (length (a :: l)))%Z).
        { unfold idx. apply focus_index_range;
            [apply random_unit; assumption | simpl; lia]. }
        destruct (Z.leb_spec (Z.of_nat 0) idx);
          destruct (Z.ltb_spec idx (Z.of_nat (0 + length (a :: l))));
          cbn [andb]; simpl length in *; lia.
Qed.

(** * Further properties of the particle *)

(** X9.  With draws in [[0,1)] the constructor gives a twinkle offset in
    [[0, 2 PI)], a twinkle speed in [[0.5, 2.5)], a velocity with x and z in
    [[-0.01, 0.01)] and a strictly negative y in [(-0.04, -0.01]]; it takes
    five draws. *)
Theorem constructor_ranges : forall m ty g,
  unit_draws g ->
  let p := fst (Particle_new m ty g) in
  0 <= twinkleOffset p < 2 * PI
  /\ 0.5 <= twinkleSpeed p < 2.5
  /\ -0.01 <= Vector3.x (velocity p) < 0.01
  /\ -0.04 < Vector3.y (velocity p) <= -0.01
  /\ -0.01 <= Vector3.z (velocity p) < 0.01
  /\ snd (Particle_new m ty g) = mkRng (draws g) (5 + cursor g).
Proof.
  intros m ty g Hg p. subst p.
  unfold Particle_new, bind, Math_random, ret. simpl.
  pose proof (Hg (cursor g)) as H0. pose proof (Hg (S (cursor g))) as H1.
  pose proof (Hg (S (S (cursor g)))) as H2.
  pose proof (Hg (S (S (S (cursor g))))) as H3.
  pose proof (Hg (S (S (S (S (cursor g)))))) as H4.
  pose proof PI_RGT_0 as Hpi.
  repeat split; try lra; nra.
Qed.

Section ParticleFacts.

Variable slerp : Euler.t -> Euler.t -> R -> Euler.t.

Lemma ticks_S : forall mode clock m n p,
  ticks slerp mode clock m (S n) p
  = update slerp mode (clock n) m (ticks slerp mode clock m n p).
Proof. reflexivity. Qed.

Lemma ticks_constants : forall mode clock m n p,
  targetScale (ticks slerp mode clock m n p) = targetScale p
  /\ targetRot (ticks slerp mode clock m n p) = targetRot p
  /\ baseScale (ticks slerp mode clock m n p) = baseScale p
  /\ velocity (ticks slerp mode clock m n p) = velocity p.
Proof.
  intros mode clock m n p; induction n as [|n [IH1 [IH2 [IH3 IH4]]]].
  - repeat split.
  - rewrite ticks_S. repeat split; assumption.
Qed.

(** X10.  For a NEEDLE or a PHOTO every [update] replaces the scale of the
    mesh by its smoothing toward [targetScale] with the factor of the
    position (0.08 in FOCUS, 0.05 otherwise) and leaves [targetScale]
    alone, so the distance between the two is multiplied by [1 - factor]
    at each tick and tends to zero. *)
Theorem scale_smoothing_converges : forall mode clock isMobile p,
  type p = NEEDLE \/ type p = PHOTO ->
  let f := lerpFactor mode in
  let run n := ticks slerp mode clock isMobile n p in
  let d n := Vector3.distanceTo (scale (mesh (run n))) (targetScale p) in
  (forall n, targetScale (run n) = targetScale p)
  /\ (forall n, scale (mesh (run (S n)))
                = Vector3.lerp (scale (mesh (run n))) (targetScale p) f)
  /\ (forall n, d (S n) = (1 - f) * d n)
  /\ Un_cv d 0.
Proof.
  intros mode clock isMobile p Hty f run d.
  assert (Htw : forall n, twinkles (type (run n)) = false).
  { intros n. unfold run. rewrite ticks_type.
    destruct Hty as [-> | ->]; reflexivity. }
  assert (Hts : forall n, targetScale (run n) = targetScale p)
    by (intros n; apply ticks_constants).
  assert (Hsc : forall n, scale (mesh (run (S n)))
                          = Vector3.lerp (scale (mesh (run n))) (targetScale p) f).
  { intros n. unfold run. rewrite ticks_S. fold (run n).
    unfold update. cbn [mesh set_targetPos set_mesh scale].
    rewrite Htw, Hts. reflexivity. }
  pose proof (lerpFactor_range mode) as Hf. fold f in Hf.
  assert (Hstep : forall n, d (S n) = (1 - f) * d n).
  { intros n. unfold d. rewrite Hsc. apply lerp_distance. lra. }
  split; [assumption|]. split; [assumption|]. split; [assumption|].
  apply (geometric_to_zero (1 - f) (d 0%nat)); [lra | apply distanceTo_nonneg |].
  induction n as [|n IH]; [simpl; ring|]. rewrite Hstep, IH. simpl. ring.
Qed.

(** X11.  For a SHAPE, DUST or STAR particle with a base scale [b >= 0],
    the twinkle keeps the scale of the mesh between [0.5 b] and [1.1 b]:
    if the three components start there, they are there after any number
    of ticks, whatever the mode, the clock and [targetScale]. *)
Theorem twinkle_scale_bounded : forall mode clock isMobile p n,
  type p = SHAPE \/ type p = DUST \/ type p = STAR ->
  0 <= baseScale p ->
  boxed (0.5 * baseScale p) (1.1 * baseScale p) (scale (mesh p)) ->
  boxed (0.5 * baseScale p) (1.1 * baseScale p)
        (scale (mesh (ticks slerp mode clock isMobile n p))).
Proof.
  intros mode clock isMobile p n Hty Hb H0.
  induction n as [|n IH]; [exact H0|].
  rewrite ticks_S. set (q := ticks slerp mode clock isMobile n p) in *.
  assert (Htw : twinkles (type q) = true).
  { unfold q. rewrite ticks_type. destruct Hty as [-> | [-> | ->]]; reflexivity. }
  assert (Hbq : baseScale q = baseScale p) by apply ticks_constants.
  unfold update. cbn [mesh set_targetPos set_mesh scale]. rewrite Htw, Hbq.
  set (s := baseScale p * (0.8 + sin (clock n * twinkleSpeed q + twinkleOffset q) * 0.3)).
  assert (Hs : 0.5 * baseScale p <= s <= 1.1 * baseScale p).
  { unfold s. pose proof (SIN_bound (clock n * twinkleSpeed q + twinkleOffset q)) as [? ?].
    split; nra. }
  destruct IH as [[? ?] [[? ?] [? ?]]].
  unfold boxed, Vector3.lerp. cbn [Vector3.x Vector3.y Vector3.z].
  repeat split; lra.
Qed.

(** X12.  Outside FOCUS the target of a snow particle drifts sideways
    without bound or wrap-around: after [n] ticks its x and z are the
    starting ones plus [n] times the velocity.  Its height is recycled:
    with a velocity that points down and a start at or below 30, the
    height is within [[-20, 30]] after every tick. *)
Theorem snow_drift : forall mode clock isMobile p,
  type p = DUST -> mode <> FOCUS ->
  let run n := ticks slerp mode clock isMobile n p in
  (forall n, Vector3.x (targetPos (run n))
             = Vector3.x (targetPos p) + INR n * Vector3.x (velocity p))
  /\ (forall n, Vector3.z (targetPos (run n))
                = Vector3.z (targetPos p) + INR n * Vector3.z (velocity p))
  /\ (Vector3.y (velocity p) <= 0 -> Vector3.y (targetPos p) <= 30 ->
      forall n, (0 < n)%nat -> -20 <= Vector3.y (targetPos (run n)) <= 30).
Proof.
  intros mode clock isMobile p Hty Hmode run.
  assert (Hdr : forall n, drifts mode (run n) = true).
  { intros n. unfold drifts, run. rewrite ticks_type, Hty.
    destruct mode; try reflexivity. contradiction. }
  assert (Hv : forall n, velocity (run n) = velocity p)
    by (intros n; apply ticks_constants).
  assert (Hstep : forall n, targetPos (run (S n))
            = (let moved := Vector3.add (targetPos (run n)) (velocity p) in
               if Rlt_dec (Vector3.y moved) (-20)
               then Vector3.setY moved 30 else moved)).
  { intros n. unfold run. rewrite ticks_S. fold (run n).
    rewrite (update_dust_target slerp _ _ _ _ (Hdr n)), Hv. reflexivity. }
  split; [|split].
  - induction n as [|n IH]; [unfold run; simpl; ring|].
    rewrite Hstep, S_INR. cbv zeta.
    destruct (Rlt_dec _ _);
      cbn [Vector3.x Vector3.y Vector3.z Vector3.add Vector3.setY];
      rewrite IH; ring.
  - induction n as [|n IH]; [unfold run; simpl; ring|].
    rewrite Hstep, S_INR. cbv zeta.
    destruct (Rlt_dec _ _);
      cbn [Vector3.x Vector3.y Vector3.z Vector3.add Vector3.setY];
      rewrite IH; ring.
  - intros Hvy Hy0.
    assert (Hup : forall n, Vector3.y (targetPos (run n)) <= 30).
    { induction n as [|n IH]; [exact Hy0|].
      rewrite Hstep. cbv zeta.
      destruct (Rlt_dec _ _) as [Hlt | Hge];
        cbn [Vector3.x Vector3.y Vector3.z Vector3.add Vector3.setY] in *; lra. }
    intros [|n] Hn; [lia|]. split; [|apply Hup].
    rewrite Hstep. cbv zeta.
    destruct (Rlt_dec _ _) as [Hlt | Hge];
      cbn [Vector3.x Vector3.y Vector3.z Vector3.add Vector3.setY] in *; lra.
Qed.

End ParticleFacts.

(** * Further properties of the scene *)

Lemma Particle_new_advances : forall m ty, advances (Particle_new m ty).
Proof. intros m ty g. reflexivity. Qed.

Lemma spawn_advances : forall n mk ty pool,
  advances mk -> advances (spawn n mk ty pool).
Proof.
  intros n mk ty pool Hmk; revert pool; induction n as [|n IH]; intros pool.
  - apply advances_ret.
  - cbn [spawn]. apply advances_bind; [assumption|]. intros m.
    apply advances_bind; [apply Particle_new_advances|]. intros p. apply IH.
Qed.

Lemma spawn_Forall : forall (P : Particle -> Prop) mk ty g0,
  advances mk ->
  (forall g, draws g = draws g0 ->
     P (fst (Particle_new (fst (mk g)) ty (snd (mk g))))) ->
  forall n pool g,
    draws g = draws g0 -> Forall P pool -> Forall P (fst (spawn n mk ty pool g)).
Proof.
  intros P mk ty g0 Hmk HP n; induction n as [|n IH]; intros pool g Hd Hpool.
  - assumption.
  - cbn [spawn]. rewrite !bind_fst. apply IH.
    + rewrite Particle_new_advances, Hmk. assumption.
    + apply Forall_app. split; [assumption|]. constructor; [|constructor].
      now apply HP.
Qed.

Section MountFacts.

Variable slerp : Euler.t -> Euler.t -> R -> Euler.t.

(** X13.  The group follows the hand by smoothing with factor 0.1: after
    [n] frames with the same signal its yaw is the target [(x - 0.5) * 2]
    plus [0.9^n] times the starting offset, and likewise its pitch with the
    target [(y - 0.5) * 1.5]; without a signal the yaw grows by 0.003 per
    frame and the pitch stays; the roll never changes. *)
Theorem group_rotation_after_frames : forall mode clock isMobile s n,
  (forall h,
     let r := groupRotation (frames slerp mode (Some h) clock isMobile n s) in
     let yaw := (hand_x h - 0.5) * 2.0 in
     let pitch := (hand_y h - 0.5) * 1.5 in
     Euler.y r = yaw + 0.9 ^ n * (Euler.y (groupRotation s) - yaw)
     /\ Euler.x r = pitch + 0.9 ^ n * (Euler.x (groupRotation s) - pitch)
     /\ Euler.z r = Euler.z (groupRotation s))
  /\ groupRotation (frames slerp mode None clock isMobile n s)
     = Euler.new (Euler.x (groupRotation s))
                 (Euler.y (groupRotation s) + INR n * 0.003)
                 (Euler.z (groupRotation s)).
Proof.
  intros mode clock isMobile s n. split.
  - intros h. cbv zeta. induction n as [|n [IHy [IHx IHz]]].
    + simpl. repeat split; ring.
    + cbn [frames]. unfold animate at 1 2 3. cbn [groupRotation Euler.x Euler.y Euler.z].
      unfold MathUtils_lerp. rewrite IHy, IHx, IHz. simpl pow.
      repeat split; lra.
  - induction n as [|n IH].
    + simpl. destruct (groupRotation s) as [gx gy gz]. simpl. f_equal. ring.
    + cbn [frames]. unfold animate at 1. cbn [groupRotation]. rewrite IH.
      cbn [Euler.x Euler.y Euler.z]. rewrite S_INR. f_equal. ring.
Qed.

Lemma mountEffect_parts : forall m mode hand time s g,
  fst (mountEffect slerp true m mode hand time s g)
  = let r0 := mountPool m s g in
    let s2 := animate slerp mode hand time m
                (fst (addPhotoToScene (fst r0) (snd r0))) in
    mkScene (sceneRef s2) (particles s2) (groupRotation s2) true.
Proof.
  intros. unfold mountEffect. cbn [negb]. rewrite !bind_fst. reflexivity.
Qed.

(** X14.  With a container the mount effect builds, in this order, one
    star, 600 needles, 400 ornaments and 800 snow particles on a
    constrained display (1200, 800 and 2000 otherwise) and the greeting
    photo, 1802 or 4002 particles in all, and leaves the scene created and
    the listener installed; without a container it does nothing and takes
    no draw. *)
Theorem mount_builds_pool : forall isMobile mode hand time g,
  (let s := fst (mountEffect slerp true isMobile mode hand time initialScene g) in
   map type (particles s)
   = STAR :: repeat NEEDLE (needleCount isMobile)
       ++ repeat SHAPE (ornamentCount isMobile)
       ++ repeat DUST (snowCount isMobile) ++ [PHOTO]
   /\ length (particles s) = (if isMobile then 1802 else 4002)%nat
   /\ sceneRef s = true /\ photoListener s = true)
  /\ mountEffect slerp false isMobile mode hand time initialScene g
     = (initialScene, g).
Proof.
  intros isMobile mode hand time g. split; [|reflexivity]. cbv zeta.
  rewrite mountEffect_parts. cbv zeta. cbn [particles sceneRef photoListener].
  set (r0 := mountPool isMobile initialScene g).
  assert (E0 : sceneRef (fst r0) = true) by apply mountPool_scene.
  assert (Et : map type (particles (animate slerp mode hand time isMobile
                 (fst (addPhotoToScene (fst r0) (snd r0)))))
               = STAR :: repeat NEEDLE (needleCount isMobile)
                   ++ repeat SHAPE (ornamentCount isMobile)
                   ++ repeat DUST (snowCount isMobile) ++ [PHOTO]).
  { rewrite animate_types, addPhoto_types by assumption.
    unfold r0. rewrite mountPool_types. simpl. rewrite <- !app_assoc. reflexivity. }
  split; [exact Et|]. split.
  - rewrite <- (length_map type), Et. cbn [length].
    rewrite !length_app, !repeat_length. destruct isMobile; reflexivity.
  - split; [|reflexivity].
    destruct (animate_flags slerp mode hand time isMobile
                (fst (addPhotoToScene (fst r0) (snd r0)))) as [-> _].
    destruct (addPhoto_flags (fst r0) (snd r0)) as [-> _]. assumption.
Qed.

Lemma mountPool_advances : forall m s, advances (mountPool m s).
Proof.
  intros m s. unfold mountPool.
  repeat (apply advances_bind; [|intros ?]);
    try apply spawn_advances; try apply Particle_new_advances;
    try apply advances_ret; try (intros g; reflexivity).
Qed.

Lemma mountPool_placed : forall m g,
  unit_draws g ->
  Forall (fun p => position (mesh p) = targetPos p /\ spawn_ok p)
         (particles (fst (mountPool m initialScene g))).
Proof.
  intros m g Hg. unfold mountPool. rewrite !bind_fst. cbv beta.
  unfold ret at 1. cbn [fst particles].
  set (r0 := Particle_new Mesh_new STAR g).
  set (r1 := spawn (needleCount m) (ret Mesh_new) NEEDLE
                   (particles initialScene ++ [fst r0]) (snd r0)).
  set (r2 := spawn (ornamentCount m) ornamentMesh SHAPE (fst r1) (snd r1)).
  assert (D0 : draws (snd r0) = draws g) by reflexivity.
  assert (D1 : draws (snd r1) = draws g).
  { unfold r1. rewrite spawn_advances by (intros ?; reflexivity). exact D0. }
  assert (D2 : draws (snd r2) = draws g).
  { unfold r2. rewrite spawn_advances by (intros ?; reflexivity). exact D1. }
  apply (spawn_Forall _ snowMesh DUST g); [intros ?; reflexivity | | exact D2 |].
  { intros g' Hd. pose proof (unit_draws_same g g' Hd Hg) as Hg'.
    split; [reflexivity|]. unfold spawn_ok. cbn.
    pose proof (Hg' (cursor g')). pose proof (Hg' (S (cursor g'))).
    pose proof (Hg' (S (S (cursor g')))). lra. }
  apply (spawn_Forall _ ornamentMesh SHAPE g); [intros ?; reflexivity | | exact D1 |].
  { intros g' Hd. split; reflexivity. }
  apply (spawn_Forall _ (ret Mesh_new) NEEDLE g); [intros ?; reflexivity | | exact D0 |].
  { intros g' Hd. split; reflexivity. }
  constructor; [split; reflexivity | constructor].
Qed.

(** X15.  With draws in [[0,1)], after the mount effect, the first frame
    included, every particle is still where it was created: the snow in
    the slab [[-50,50) x [-20,30) x [-50,50)], the photo in the cube of
    half-side 25, the star, the needles and the ornaments at the origin;
    and every particle but the snow still has its target there. *)
Theorem mount_places_particles : forall isMobile mode hand time g,
  unit_draws g ->
  Forall (fun p => spawn_ok p /\ (type p <> DUST -> targetPos p = position (mesh p)))
         (particles (fst (mountEffect slerp true isMobile mode hand time
                            initialScene g))).
Proof.
  intros isMobile mode hand time g Hg.
  rewrite mountEffect_parts. cbv zeta. cbn [particles].
  set (r0 := mountPool isMobile initialScene g).
  assert (E0 : sceneRef (fst r0) = true) by apply mountPool_scene.
  assert (Hg0 : unit_draws (snd r0)).
  { apply (unit_draws_same g); [apply mountPool_advances | assumption]. }
  assert (Hpl : Forall (fun p => position (mesh p) = targetPos p /\ spawn_ok p)
                  (particles (fst r0))) by (now apply mountPool_placed).
  clearbody r0.
  assert (H1 : Forall (fun p => position (mesh p) = targetPos p /\ spawn_ok p)
                 (particles (fst (addPhotoToScene (fst r0) (snd r0))))).
  { destruct (addPhoto_appends (fst r0) (snd r0) E0) as [p [g' [_ [-> Hp]]]].
    cbn [particles set_particles]. apply Forall_app. split.
    - assumption.
    - constructor; [|constructor]. rewrite Hp. split; [reflexivity|].
      unfold spawn_ok, in_spawn_cube. cbn.
      pose proof (Hg0 (cursor (snd r0))). pose proof (Hg0 (S (cursor (snd r0)))).
      pose proof (Hg0 (S (S (cursor (snd r0))))). lra. }
  unfold animate. cbn [particles].
  assert (H2 : Forall (fun p => spawn_ok p
                               /\ (type p <> DUST -> targetPos p = position (mesh p)))
                 (map (update slerp mode time isMobile)
                      (particles (fst (addPhotoToScene (fst r0) (snd r0)))))).
  { apply Forall_map. eapply Forall_impl; [|exact H1].
    intros p [Hrest Hok].
    assert (Hpos : position (mesh (update slerp mode time isMobile p))
                   = position (mesh p)).
    { rewrite update_position, Hrest. apply lerp_self. }
    split.
    - unfold spawn_ok in *. rewrite update_type, Hpos. exact Hok.
    - intros Hty. rewrite update_type in Hty. rewrite Hpos.
      rewrite update_target_held; [now symmetry|].
      unfold drifts. apply ParticleType_eqb_neq in Hty. now rewrite Hty. }
  destruct (map (update slerp mode time isMobile) _) as [|q rest]; [constructor|].
  inversion H2; subst. cbn [spinStar]. constructor; assumption.
Qed.


End MountFacts.

(** * Properties of the hand detector and of the application state *)

Lemma planeDist_nonneg : forall a b, 0 <= planeDist a b.
Proof. intros a b. apply sqrt_pos. Qed.

Lemma planeDist_shift : forall dx dy dz a b,
  planeDist (shift dx dy dz a) (shift dx dy dz b) = planeDist a b.
Proof.
  intros dx dy dz a b. unfold planeDist, Math_hypot, shift. simpl.
  f_equal. ring.
Qed.

Lemma Rltb_true : forall a b, Rltb a b = true <-> a < b.
Proof.
  intros a b. unfold Rltb. destruct (Rlt_dec a b); split; intro H;
    try reflexivity; try assumption; try discriminate; contradiction.
Qed.

Lemma nth_error_within : forall (A : Type) (l : list A) k,
  (k < length l)%nat -> exists a, nth_error l k = Some a.
Proof.
  intros A l k H. destruct (nth_error l k) as [a|] eqn:E; [eauto|].
  apply nth_error_None in E. lia.
Qed.

Lemma sumTips_missing : forall landmarks wrist ts total t,
  In t ts -> nth_error landmarks t = None -> sumTips landmarks wrist ts total = None.
Proof.
  intros landmarks wrist ts; induction ts as [|a rest IH]; intros total t Hin Hn.
  - contradiction.
  - simpl. destruct (nth_error landmarks a) as [tip|] eqn:E; [|reflexivity].
    destruct Hin as [-> | Hin]; [congruence|]. now apply (IH _ t).
Qed.

Lemma sumTips_tips : forall landmarks wrist t8 t12 t16 t20,
  nth_error landmarks 8 = Some t8 -> nth_error landmarks 12 = Some t12 ->
  nth_error landmarks 16 = Some t16 -> nth_error landmarks 20 = Some t20 ->
  sumTips landmarks wrist tips 0
  = Some (0 + planeDist t8 wrist + planeDist t12 wrist + planeDist t16 wrist
          + planeDist t20 wrist).
Proof.
  intros landmarks wrist t8 t12 t16 t20 H8 H12 H16 H20.
  unfold tips. cbn [sumTips]. rewrite H8, H12, H16, H20. reflexivity.
Qed.

Lemma readHand_full : forall landmarks,
  (21 <= length landmarks)%nat ->
  exists thumb index palm spread,
    nth_error landmarks 4 = Some thumb /\ nth_error landmarks 8 = Some index
    /\ nth_error landmarks 9 = Some palm /\ tipSpread landmarks = Some spread
    /\ 0 <= spread
    /\ readHand landmarks
       = Hand {| hand_x := lm_x palm; hand_y := lm_y palm;
                 pinch := Rltb (planeDist thumb index) 0.05;
                 fist := Rltb spread 0.22;
                 open := Rltb 0.38 spread |}.
Proof.
  intros landmarks Hlen.
  destruct (nth_error_within _ landmarks 0) as [wrist H0]; [lia|].
  destruct (nth_error_within _ landmarks 4) as [thumb H4]; [lia|].
  destruct (nth_error_within _ landmarks 8) as [index H8]; [lia|].
  destruct (nth_error_within _ landmarks 9) as [palm H9]; [lia|].
  destruct (nth_error_within _ landmarks 12) as [t12 H12]; [lia|].
  destruct (nth_error_within _ landmarks 16) as [t16 H16]; [lia|].
  destruct (nth_error_within _ landmarks 20) as [t20 H20]; [lia|].
  exists thumb, index, palm,
    ((planeDist index wrist + planeDist t12 wrist + planeDist t16 wrist
      + planeDist t20 wrist) / 4).
  split; [assumption|]. split; [assumption|]. split; [assumption|]. split.
  - unfold tipSpread. now rewrite H0, H8, H12, H16, H20.
  - split.
    + pose proof (planeDist_nonneg index wrist). pose proof (planeDist_nonneg t12 wrist).
      pose proof (planeDist_nonneg t16 wrist). pose proof (planeDist_nonneg t20 wrist).
      lra.
    + unfold readHand. rewrite H4, H8, H0, H9.
      rewrite (sumTips_tips landmarks wrist index t12 t16 t20 H8 H12 H16 H20).
      cbv zeta. fold (planeDist thumb index).
      replace (INR (length tips)) with 4 by (simpl; ring).
      replace ((0 + planeDist index wrist + planeDist t12 wrist + planeDist t16 wrist
                + planeDist t20 wrist) / 4)
        with ((planeDist index wrist + planeDist t12 wrist + planeDist t16 wrist
               + planeDist t20 wrist) / 4) by (unfold Rdiv; ring).
      reflexivity.
Qed.

Lemma readHand_short : forall landmarks,
  (length landmarks < 21)%nat -> readHand landmarks = Threw.
Proof.
  intros landmarks Hlen.
  assert (H20 : nth_error landmarks 20 = None) by (apply nth_error_None; lia).
  unfold readHand.
  destruct (nth_error landmarks 4); [|reflexivity].
  destruct (nth_error landmarks 8); [|reflexivity].
  destruct (nth_error landmarks 0) as [wrist|]; [|reflexivity].
  destruct (nth_error landmarks 9); [|reflexivity].
  rewrite (sumTips_missing landmarks wrist tips 0 20%nat); [reflexivity | | assumption].
  unfold tips. simpl. auto.
Qed.

(** X17.  [detect] returns [null] exactly when the model is not loaded,
    the video is not ready ([readyState < 2]) or no hand is reported.
    Otherwise it reads the first hand: it returns a pose when that hand has
    at least 21 landmarks and throws when it has fewer. *)
Theorem detect_outcomes : forall handLandmarker readyState results,
  (detect handLandmarker readyState results = NoHand
   <-> handLandmarker = false \/ (readyState < 2)%Z
       \/ results = None \/ results = Some [])
  /\ (forall landmarks others,
        handLandmarker = true -> (2 <= readyState)%Z ->
        results = Some (landmarks :: others) ->
        ((21 <= length landmarks)%nat ->
           exists h, detect handLandmarker readyState results = Hand h)
        /\ ((length landmarks < 21)%nat ->
              detect handLandmarker readyState results = Threw)).
Proof.
  intros handLandmarker readyState results.
  assert (Hread : forall landmarks, readHand landmarks <> NoHand).
  { intros landmarks. destruct (Nat.le_gt_cases 21 (length landmarks)) as [H | H].
    - destruct (readHand_full landmarks H) as [? [? [? [? [_ [_ [_ [_ [_ ->]]]]]]]]].
      discriminate.
    - rewrite (readHand_short landmarks H). discriminate. }
  split.
  - unfold detect. destruct handLandmarker; cbn [negb orb].
    + destruct (Z.ltb_spec readyState 2) as [Hlt | Hge].
      * split; auto.
      * destruct results as [[|landmarks others]|]; split; intro H; auto.
        -- exfalso. now apply (Hread landmarks).
        -- destruct H as [H | [H | [H | H]]]; try discriminate; lia.
    + split; auto.
  - intros landmarks others -> Hready ->. unfold detect. cbn [negb orb].
    destruct (Z.ltb_spec readyState 2) as [Hlt | _]; [lia|]. split.
    + intros Hlen.
      destruct (readHand_full landmarks Hlen) as [? [? [? [? [_ [_ [_ [_ [_ ->]]]]]]]]].
      eauto.
    + apply readHand_short.
Qed.

(** X18.  For a hand of at least 21 landmarks the pose reports the palm
    centre (landmark 9); [fist] holds exactly when the average distance of
    the four fingertips from the wrist is below 0.22, [open] exactly when
    it is above 0.38, and [pinch] exactly when thumb tip and index tip are
    closer than 0.05; [fist] and [open] never hold together. *)
Theorem pose_flags : forall landmarks,
  (21 <= length landmarks)%nat ->
  exists h thumb index palm spread,
    readHand landmarks = Hand h
    /\ nth_error landmarks 4 = Some thumb /\ nth_error landmarks 8 = Some index
    /\ nth_error landmarks 9 = Some palm /\ tipSpread landmarks = Some spread
    /\ hand_x h = lm_x palm /\ hand_y h = lm_y palm
    /\ (fist h = true <-> spread < 0.22)
    /\ (open h = true <-> 0.38 < spread)
    /\ (pinch h = true <-> planeDist thumb index < 0.05)
    /\ (fist h = true -> open h = false).
Proof.
  intros landmarks Hlen.
  destruct (readHand_full landmarks Hlen)
    as [thumb [index [palm [spread [H4 [H8 [H9 [Hs [Hpos E]]]]]]]]].
  eexists. exists thumb, index, palm, spread.
  split; [exact E|]. cbn [hand_x hand_y fist open pinch].
  split; [assumption|]. split; [assumption|]. split; [assumption|].
  split; [assumption|]. split; [reflexivity|]. split; [reflexivity|].
  split; [apply Rltb_true|]. split; [apply Rltb_true|]. split; [apply Rltb_true|].
  intros Hf. apply Rltb_true in Hf.
  destruct (Rltb 0.38 spread) eqn:Ho; [|reflexivity].
  apply Rltb_true in Ho. lra.
Qed.

(** X19.  The pose depends on the shape of the hand only: moving every
    landmark by the same [(dx, dy, dz)] moves the reported palm centre by
    [(dx, dy)] and leaves [pinch], [fist] and [open] as they were; a hand
    that makes [detect] throw still does. *)
Theorem pose_translation_invariant : forall dx dy dz landmarks,
  readHand (map (shift dx dy dz) landmarks)
  = match readHand landmarks with
    | Hand h =>
        Hand {| hand_x := hand_x h + dx; hand_y := hand_y h + dy;
                pinch := pinch h; fist := fist h; open := open h |}
    | other => other
    end.
Proof.
  intros dx dy dz landmarks.
  destruct (Nat.le_gt_cases 21 (length landmarks)) as [Hlen | Hlen].
  - assert (Hlen' : (21 <= length (map (shift dx dy dz) landmarks))%nat)
      by (now rewrite length_map).
    destruct (readHand_full landmarks Hlen)
      as [thumb [index [palm [spread [H4 [H8 [H9 [Hs [_ ->]]]]]]]]].
    destruct (readHand_full _ Hlen')
      as [thumb' [index' [palm' [spread' [H4' [H8' [H9' [Hs' [_ ->]]]]]]]]].
    rewrite nth_error_map in H4', H8', H9'.
    rewrite H4 in H4'. rewrite H8 in H8'. rewrite H9 in H9'.
    injection H4' as <-. injection H8' as <-. injection H9' as <-.
    unfold tipSpread in Hs, Hs'. rewrite !nth_error_map in Hs'.
    destruct (nth_error landmarks 0) as [wrist|]; [|discriminate].
    destruct (nth_error landmarks 8) as [t8|]; [|discriminate].
    destruct (nth_error landmarks 12) as [t12|]; [|discriminate].
    destruct (nth_error landmarks 16) as [t16|]; [|discriminate].
    destruct (nth_error landmarks 20) as [t20|]; [|discriminate].
    cbn [option_map] in Hs'. rewrite !planeDist_shift in Hs'.
    rewrite planeDist_shift. cbn [hand_x hand_y pinch fist open shift lm_x lm_y].
    congruence.
  - rewrite (readHand_short landmarks Hlen).
    apply readHand_short. now rewrite length_map.
Qed.

(** X20.  What a detected hand does to the mode: a closed hand (fingertips
    on average closer than 0.22 to the wrist) selects TREE, an open one
    (farther than 0.38) selects SCATTER, and in between a pinch (thumb and
    index closer than 0.05) selects FOCUS and anything else keeps the mode;
    the pose is stored and the other fields are kept.  So a pinch made with
    a closed or an open hand does not select FOCUS. *)
Theorem detected_hand_sets_mode : forall landmarks s,
  (21 <= length landmarks)%nat ->
  exists h thumb index spread,
    readHand landmarks = Hand h
    /\ nth_error landmarks 4 = Some thumb /\ nth_error landmarks 8 = Some index
    /\ tipSpread landmarks = Some spread
    /\ App.handData (App.onDetect (readHand landmarks) s) = Some h
    /\ App.mode (App.onDetect (readHand landmarks) s)
       = (if Rlt_dec spread 0.22 then TREE
          else if Rlt_dec 0.38 spread then SCATTER
          else if Rlt_dec (planeDist thumb index) 0.05 then FOCUS
          else App.mode s)
    /\ App.uiVisible (App.onDetect (readHand landmarks) s) = App.uiVisible s
    /\ App.isLoaded (App.onDetect (readHand landmarks) s) = App.isLoaded s.
Proof.
  intros landmarks s Hlen.
  destruct (readHand_full landmarks Hlen)
    as [thumb [index [palm [spread [H4 [H8 [H9 [Hs [Hpos E]]]]]]]]].
  eexists. exists thumb, index, spread. rewrite E.
  split; [reflexivity|]. split; [assumption|]. split; [assumption|].
  split; [assumption|]. split; [reflexivity|]. split; [|split; reflexivity].
  unfold App.onDetect, App.gesture. cbn [App.mode fist open pinch]. unfold Rltb.
  destruct (Rlt_dec spread 0.22); [reflexivity|].
  destruct (Rlt_dec 0.38 spread); [reflexivity|].
  destruct (Rlt_dec (planeDist thumb index) 0.05); reflexivity.
Qed.

Lemma detect_pose_exclusive : forall handLandmarker readyState results h,
  detect handLandmarker readyState results = Hand h ->
  fist h = true -> open h = false.
Proof.
  intros handLandmarker readyState results h Hd.
  assert (Hr : exists landmarks, readHand landmarks = Hand h).
  { unfold detect in Hd. destruct (negb handLandmarker || (readyState <? 2)%Z);
      [discriminate|].
    destruct results as [[|landmarks others]|]; try discriminate. eauto. }
  destruct Hr as [landmarks Hr].
  destruct (Nat.le_gt_cases 21 (length landmarks)) as [Hlen | Hlen].
  - destruct (readHand_full landmarks Hlen)
      as [thumb [index [palm [spread [_ [_ [_ [_ [_ E]]]]]]]]].
    rewrite E in Hr. injection Hr as <-. cbn [fist open].
    intros Hf. apply Rltb_true in Hf.
    destruct (Rltb 0.38 spread) eqn:Ho; [|reflexivity].
    apply Rltb_true in Ho. lra.
  - rewrite (readHand_short landmarks Hlen) in Hr. discriminate.
Qed.

Lemma toggleMode_fields : forall s s',
  App.toggleMode s = Some s' ->
  App.handData s' = App.handData s /\ App.uiVisible s' = App.uiVisible s
  /\ App.isLoaded s' = App.isLoaded s.
Proof.
  intros s s' H. unfold App.toggleMode in H.
  destruct (App.at_ App.modes _); [|discriminate].
  injection H as <-. repeat split.
Qed.

(** X21.  The application state never forgets: no update clears a stored
    hand pose (when the hand leaves the picture the last pose stays) and
    none resets [isLoaded]; and the stored pose always comes from the
    detector, so it never has [fist] and [open] both set. *)
Theorem app_state_never_forgets : forall s,
  App.reachable s ->
  (forall h, App.handData s = Some h -> fist h = true -> open h = false)
  /\ (forall s', App.step s s' ->
        (App.handData s <> None -> App.handData s' <> None)
        /\ (App.isLoaded s = true -> App.isLoaded s' = true)).
Proof.
  intros s Hr. split.
  - induction Hr as [| s Hr IH | s Hr IH | s hl rs res Hr IH | s s' Hr IH Ht];
      intros h Hh.
    + discriminate.
    + now apply IH.
    + now apply IH.
    + destruct (detect hl rs res) as [|h'|] eqn:Ed; cbn [App.onDetect] in Hh;
        try (now apply IH).
      cbn in Hh. injection Hh as <-. now apply (detect_pose_exclusive hl rs res).
    + destruct (toggleMode_fields s s' Ht) as [E _]. rewrite E in Hh. now apply IH.
  - intros s' Hstep. destruct Hstep as [s | s | s hl rs res | s s' Ht].
    + split; auto.
    + split; auto.
    + destruct (detect hl rs res); cbn [App.onDetect]; split; auto.
      cbn. discriminate.
    + destruct (toggleMode_fields s s' Ht) as [E1 [_ E3]]. rewrite E1, E3. split; auto.
Qed.

(** X22.  [toggleMode] always finds the next mode: it cycles TREE,
    SCATTER, FOCUS, TREE, changes nothing but the mode, and three toggles
    give back the state they started from, no sooner. *)
Theorem toggleMode_cycles : forall s,
  exists s1 s2,
    App.toggleMode s = Some s1 /\ App.toggleMode s1 = Some s2
    /\ App.toggleMode s2 = Some s
    /\ App.mode s1 = match App.mode s with
                     | TREE => SCATTER | SCATTER => FOCUS | FOCUS => TREE
                     end
    /\ App.mode s1 <> App.mode s /\ App.mode s2 <> App.mode s
    /\ App.handData s1 = App.handData s /\ App.uiVisible s1 = App.uiVisible s
    /\ App.isLoaded s1 = App.isLoaded s.
Proof.
  intros [m h u l].
  destruct m; eexists; eexists;
    (split; [reflexivity|]); (split; [reflexivity|]); (split; [reflexivity|]);
    cbn; repeat split; discriminate.
Qed.

(** X23.  [App] mounts the scene with its initial state, mode TREE and no
    hand pose, and the frame loop keeps those: in every state of the
    component so mounted the group has pitch 0 and roll 0 and a yaw that is
    a whole number of idle steps of 0.003.  A hand pose detected later
    never reaches the loop. *)
Theorem mounted_by_app_idles : forall slerp s,
  running slerp (App.mode App.initial) (App.handData App.initial) s ->
  Euler.x (groupRotation s) = 0
  /\ Euler.z (groupRotation s) = 0
  /\ exists n, Euler.y (groupRotation s) = INR n * 0.003.
Proof.
  intros slerp s H. cbn [App.mode App.handData App.initial] in H.
  induction H as
    [container m time g
    | s mode m g Hr IH
    | s time m Hr [IHx [IHz [n IHy]]] Hs
    | s g Hr IH].
  - destruct container.
    + rewrite mountEffect_parts. cbv zeta. cbn [groupRotation].
      unfold animate. cbn [groupRotation Euler.x Euler.y Euler.z].
      destruct (addPhoto_flags (fst (mountPool m initialScene g))
                  (snd (mountPool m initialScene g))) as [_ [_ ->]].
      assert (E : groupRotation (fst (mountPool m initialScene g)) = Euler.zero).
      { unfold mountPool. rewrite !bind_fst. reflexivity. }
      rewrite E. cbn [Euler.zero Euler.x Euler.y Euler.z].
      split; [reflexivity|]. split; [reflexivity|]. exists 1%nat. simpl. lra.
    + cbn. split; [reflexivity|]. split; [reflexivity|]. exists 0%nat. simpl. lra.
  - unfold layoutEffect. rewrite bind_fst. exact IH.
  - unfold animate. cbn [groupRotation Euler.x Euler.y Euler.z].
    split; [assumption|]. split; [assumption|].
    exists (S n). rewrite IHy, S_INR. lra.
  - unfold onAddPhoto. destruct (photoListener s); [|exact IH].
    destruct (addPhoto_flags s g) as [_ [_ ->]]. exact IH.
Qed.

(** ** Concrete runs of the further properties *)


Lemma zero_choice : Math_floor (fst (Math_random zeroDraws) * INR 4) = 0%Z.
Proof.
  unfold Math_floor. cbn [Math_random zeroDraws fst draws cursor].
  rewrite Rmult_0_l. apply (ZfloorZ 0).
Qed.

Lemma tree_shape_cone_witness :
  exists p',
    nth_error (partition SHAPE (fst (layoutPass TREE false smallPool zeroDraws))) 0
    = Some p'
    /\ targetPos p' = Vector3.new (-9.5) (-12) 0.
Proof.
  pose proof (tree_shape_cone false smallPool zeroDraws 0 (sample SHAPE) eq_refl) as H.
  cbv zeta in H. destruct H as [p' [H1 [_ [_ [_ [_ [_ [H0 _]]]]]]]].
  exists p'. split; [exact H1 | exact (H0 eq_refl)].
Defined.

Lemma star_targets_witness :
  nth_error (fst (layoutPass TREE false smallPool zeroDraws)) 0
  = Some (set_targetPos (sample STAR) (Vector3.new 0 16.5 0)).
Proof.
  assert (Hfirst : firstOf STAR smallPool 0) by (intros k q Hk; lia).
  destruct (star_targets false smallPool zeroDraws 0 (sample STAR) eq_refl eq_refl
              Hfirst) as [H _].
  exact H.
Defined.

Lemma tree_draw_ranges_witness :
  exists p',
    nth_error (partition PHOTO (fst (layoutPass TREE false smallPool zeroDraws))) 0
    = Some p'
    /\ 2 <= Vector3.y (targetPos p') < 7.
Proof.
  pose proof (tree_draw_ranges false smallPool zeroDraws zeroDraws_unit) as H.
  cbv zeta in H. destruct H as [_ H].
  eexists. split; [reflexivity|]. apply (H 0%nat). reflexivity.
Defined.

Lemma layout_writes_targets_only_witness :
  length (fst (layoutPass SCATTER true smallPool lateDraws)) = 6%nat.
Proof.
  destruct (layout_writes_targets_only SCATTER true smallPool lateDraws) as [H _].
  exact H.
Defined.

Lemma scatter_rewrites_positions_only_witness :
  exists v,
    nth_error (fst (layoutPass SCATTER false smallPool zeroDraws)) 5
    = Some (set_targetPos (sample PHOTO) v).
Proof.
  destruct (scatter_rewrites_positions_only false smallPool zeroDraws 5
              (sample PHOTO) eq_refl) as [v [H _]].
  exists v. exact H.
Defined.

Lemma passes_over_empty_partitions_witness :
  layoutPass FOCUS false starAndSnow zeroDraws
  = (withFound STAR (starTo 0 40 (-50)) starAndSnow, mkRng (draws zeroDraws) 1).
Proof.
  destruct (passes_over_empty_partitions FOCUS false starAndSnow zeroDraws)
    as [_ [H _]].
  apply H; [reflexivity | discriminate].
Defined.

Lemma focus_back_plane_witness :
  exists p',
    nth_error (partition PHOTO (fst (layoutPass FOCUS false fourPhotos zeroDraws))) 1
    = Some p'
    /\ Vector3.z (targetPos p') = -40
    /\ targetScale p' = targetScale (sample PHOTO).
Proof.
  assert (Hidx : Z.of_nat 1
                 <> Math_floor (fst (Math_random zeroDraws)
                                * INR (length (partition PHOTO fourPhotos)))).
  { change (length (partition PHOTO fourPhotos)) with 4%nat.
    rewrite zero_choice. discriminate. }
  destruct (focus_back_plane false fourPhotos zeroDraws 1 (sample PHOTO)
              zeroDraws_unit eq_refl Hidx) as [p' [H1 [_ [_ [H2 [_ H3]]]]]].
  exists p'. split; [exact H1|]. split; [exact H2 | exact H3].
Defined.

Lemma layout_draw_count_witness :
  cursor (snd (layoutPass TREE false smallPool zeroDraws)) = 5%nat.
Proof.
  assert (Hne : smallPool <> []) by discriminate.
  pose proof (layout_draw_count TREE false smallPool zeroDraws Hne zeroDraws_unit) as H.
  cbv zeta in H. destruct H as [_ H]. exact H.
Defined.

Lemma constructor_ranges_witness :
  -0.04 < Vector3.y (velocity (sample DUST)) <= -0.01.
Proof.
  pose proof (constructor_ranges Mesh_new DUST zeroDraws zeroDraws_unit) as H.
  cbv zeta in H. destruct H as [_ [_ [_ [H _]]]]. exact H.
Defined.

Lemma scale_smoothing_converges_witness :
  Un_cv (fun n =>
           Vector3.distanceTo
             (scale (mesh (ticks still FOCUS (fun _ => 0) false n awayNeedle)))
             (targetScale awayNeedle)) 0.
Proof.
  assert (Hty : type awayNeedle = NEEDLE \/ type awayNeedle = PHOTO)
    by (left; reflexivity).
  pose proof (scale_smoothing_converges still FOCUS (fun _ => 0) false awayNeedle Hty)
    as H.
  cbv zeta in H. destruct H as [_ [_ [_ H]]]. exact H.
Defined.

Lemma twinkle_scale_bounded_witness :
  boxed (0.5 * baseScale (sample DUST)) (1.1 * baseScale (sample DUST))
        (scale (mesh (ticks still TREE (fun n => INR n) false 7 (sample DUST)))).
Proof.
  apply (twinkle_scale_bounded still TREE (fun n => INR n) false (sample DUST) 7).
  - right. left. reflexivity.
  - simpl. lra.
  - unfold boxed. simpl. lra.
Defined.

Lemma snow_drift_witness :
  Vector3.x (targetPos (ticks still TREE (fun _ => 0) false 100 lowSnow))
  = Vector3.x (targetPos lowSnow) + INR 100 * Vector3.x (velocity lowSnow).
Proof.
  assert (Hm : TREE <> FOCUS) by discriminate.
  pose proof (snow_drift still TREE (fun _ => 0) false lowSnow eq_refl Hm) as H.
  cbv zeta in H. destruct H as [H _]. exact (H 100%nat).
Defined.

Lemma mount_places_particles_witness :
  Forall (fun p => spawn_ok p /\ (type p <> DUST -> targetPos p = position (mesh p)))
         (particles (fst (mountEffect still true true TREE None 0 initialScene zeroDraws))).
Proof.
  exact (mount_places_particles still true TREE None 0 zeroDraws zeroDraws_unit).
Defined.


Lemma detect_outcomes_witness :
  exists h, detect true 4 (Some [closedHand]) = Hand h.
Proof.
  destruct (detect_outcomes true 4 (Some [closedHand])) as [_ H].
  destruct (H closedHand [] eq_refl ltac:(lia) eq_refl) as [Hfull _].
  apply Hfull. unfold closedHand. rewrite repeat_length. lia.
Defined.

Lemma closedHand_length : (21 <= length closedHand)%nat.
Proof. unfold closedHand. rewrite repeat_length. lia. Qed.

Lemma pose_flags_witness :
  exists h, readHand closedHand = Hand h /\ (fist h = true -> open h = false).
Proof.
  destruct (pose_flags closedHand closedHand_length)
    as [h [thumb [index [palm [spread [H [_ [_ [_ [_ [_ [_ [_ [_ [_ Hx]]]]]]]]]]]]]]].
  exists h. split; [exact H | exact Hx].
Defined.

Lemma detected_hand_sets_mode_witness :
  exists h, App.handData (App.onDetect (readHand closedHand) App.initial) = Some h.
Proof.
  destruct (detected_hand_sets_mode closedHand App.initial closedHand_length)
    as [h [thumb [index [spread [_ [_ [_ [_ [H _]]]]]]]]].
  exists h. exact H.
Defined.

Lemma app_state_never_forgets_witness :
  App.isLoaded (App.toggleUi (App.loaded App.initial)) = true.
Proof.
  destruct (app_state_never_forgets (App.loaded App.initial)
              (App.reach_loaded _ App.reach_initial)) as [_ H].
  destruct (H _ (App.step_toggleUi _)) as [_ H2]. exact (H2 eq_refl).
Defined.

Lemma mounted_by_app_idles_witness :
  Euler.x (groupRotation
             (fst (mountEffect still true true TREE None 0 initialScene zeroDraws)))
  = 0.
Proof.
  destruct (mounted_by_app_idles still _
              (run_mount still TREE None true true 0 zeroDraws)) as [H _].
  exact H.
Defined.
